(** * bar-lobby map cache: [CacheAPI] (cacheMaps, cacheMap, parseMapData)

    A shallow embedding of the map cache of the lobby client: the scan of
    the maps directory, the per-archive unit of work with its try/catch,
    the in-memory index [cachedMaps], the [maps] table, the image files
    and the two events sent over [ipcMain].

    What lies outside the class (the archive parser, the file system, the
    database driver, [path.join], [JSON.stringify]) is gathered in the
    record [World]; everything the class itself does is a definition
    below, named as in the source. *)

From Stdlib Require Import ZArith String Ascii List Bool Lia.
From Stdlib Require QArith.
From stdpp Require Import base option gmap strings list.

Local Open Scope string_scope.
Local Open Scope Z_scope.
Local Open Scope list_scope.

(** ** JavaScript values *)

(** Numbers that the cache only carries from the parser to the record. *)
Definition number : Type := QArith_base.Q.

(** Thrown values: what a rejected promise or a failed property access
    hands to the [catch] clause. *)
Inductive Err : Type :=
  | TypeError (what : string)
  | ParseError (path : string)
  | WriteError (dest : string)
  | SqliteError (sql : string)
  | ReaddirError (dir : string).

Inductive result (A : Type) : Type :=
  | Ok (a : A)
  | Throw (e : Err).
Arguments Ok {A} a.
Arguments Throw {A} e.

(** [a ?? b]: the right operand is taken when the left one is undefined. *)
Definition nullish {A : Type} (a b : option A) : option A :=
  match a with
  | Some v => Some v
  | None => b
  end.
Infix "??" := nullish (at level 61, left associativity).

(** A string is falsy exactly when it is empty. *)
Definition truthy (s : string) : bool :=
  match s with
  | EmptyString => false
  | String _ _ => true
  end.

(** [a || b] on optional strings: the right operand is taken when the left
    one is undefined or the empty string. *)
Definition or_else (a b : option string) : option string :=
  match a with
  | Some s => if truthy s then Some s else b
  | None => b
  end.

(** [s.endsWith(suffix)] *)
Definition endsWith (s suffix : string) : bool :=
  let n := String.length s in
  let k := String.length suffix in
  (k <=? n)%nat && String.eqb (substring (n - k) k s) suffix.

(** [s.trim()].  A string holds the UTF-8 encoding of the text; the white
    space and line terminators of JavaScript are the six characters of
    the ASCII range (U+0009 to U+000D, U+0020) and U+00A0, U+1680, U+2000
    to U+200A, U+2028, U+2029, U+202F, U+205F, U+3000 and U+FEFF, which
    are encoded on two or three bytes. *)
Definition isWhiteSpace (c : ascii) : bool :=
  let n := nat_of_ascii c in
  ((9 <=? n)%nat && (n <=? 13)%nat) || (n =? 32)%nat.

Definition isWhiteSpace2 (c1 c2 : ascii) : bool :=
  (nat_of_ascii c1 =? 194)%nat && (nat_of_ascii c2 =? 160)%nat.

Definition isWhiteSpace3 (c1 c2 c3 : ascii) : bool :=
  let b1 := nat_of_ascii c1 in
  let b2 := nat_of_ascii c2 in
  let b3 := nat_of_ascii c3 in
  ((b1 =? 225)%nat && (b2 =? 154)%nat && (b3 =? 128)%nat)
  || ((b1 =? 226)%nat && (b2 =? 128)%nat
      && (((128 <=? b3)%nat && (b3 <=? 138)%nat)
          || (b3 =? 168)%nat || (b3 =? 169)%nat || (b3 =? 175)%nat))
  || ((b1 =? 226)%nat && (b2 =? 129)%nat && (b3 =? 159)%nat)
  || ((b1 =? 227)%nat && (b2 =? 128)%nat && (b3 =? 128)%nat)
  || ((b1 =? 239)%nat && (b2 =? 187)%nat && (b3 =? 191)%nat).

(** The white space at the front of [s] is taken off; with [backwards],
    [s] is a reversed string, in which the bytes of a character come last
    byte first. *)
Fixpoint strip (backwards : bool) (s : string) : string :=
  match s with
  | EmptyString => EmptyString
  | String c1 s1 =>
      if isWhiteSpace c1 then strip backwards s1 else
      match s1 with
      | EmptyString => s
      | String c2 s2 =>
          if (if backwards then isWhiteSpace2 c2 c1 else isWhiteSpace2 c1 c2)
          then strip backwards s2 else
          match s2 with
          | EmptyString => s
          | String c3 s3 =>
              if (if backwards then isWhiteSpace3 c3 c2 c1
                  else isWhiteSpace3 c1 c2 c3)
              then strip backwards s3 else s
          end
      end
  end.

Definition trimStart (s : string) : string := strip false s.

Definition trim (s : string) : string :=
  String.rev (strip true (String.rev (strip false s))).

(** ** Data model *)

(** A raster held in memory by the parser. *)
Record Jimp : Type := { bitmap : list Z }.

Module StartPos.
Record t : Type := mk { x : number; z : number }.
End StartPos.

(** The legacy metadata block ([smd]). *)
Module SMD.
Record t : Type := mk {
  description : option string;
  mapHardness : option number;
  gravity : option number;
  tidalStrength : option number;
  maxMetal : option number;
  extractorRadius : option number;
  minWind : option number;
  maxWind : option number;
  startPositions : option (list StartPos.t)
}.
End SMD.

Module Atmosphere.
Record t : Type := mk {
  minWind : option number;
  maxWind : option number
}.
End Atmosphere.

Module Team.
Record t : Type := mk { startPos : option StartPos.t }.
End Team.

(** The modern metadata block ([mapInfo]), every part optional. *)
Module MapInfo.
Record t : Type := mk {
  description : option string;
  maphardness : option number;
  gravity : option number;
  tidalStrength : option number;
  maxMetal : option number;
  extractorRadius : option number;
  atmosphere : option Atmosphere.t;
  teams : option (list (option Team.t))
}.
End MapInfo.

(** The header of the map file; the units are 32-bit integers, so that
    doubling them is exact. *)
Module SMF.
Record t : Type := mk {
  mapWidthUnits : Z;
  mapHeightUnits : Z
}.
End SMF.

(** Modelled from the spec: the type [SpringMap] of the parser library and
    the blocks it holds ([SMD], [MapInfo] with [Atmosphere] and [Team],
    [SMF], [StartPos]), whose declarations are not among the sources.  The
    fields are those that [parseMapData] and [cacheMap] read; as the
    optional chaining of the source has it, each block and each of its
    fields may be undefined. *)
Module SpringMap.
Record t : Type := mk {
  fileName : string;
  fileNameWithExt : string;
  scriptName : string;
  minHeight : number;
  maxHeight : number;
  mapInfo : option MapInfo.t;
  smd : option SMD.t;
  smf : option SMF.t;
  textureMap : option Jimp;
  metalMap : option Jimp;
  heightMap : option Jimp;
  typeMap : option Jimp
}.
End SpringMap.

(** Modelled from the spec: the record type [MapData] of the lobby's map
    model, whose declaration is not among the sources; its fields are the
    ones that [parseMapData] fills in. *)
Module MapData.
Record t : Type := mk {
  fileName : string;
  fileNameWithExt : string;
  scriptName : string;
  description : option string;
  mapHardness : option number;
  gravity : option number;
  tidalStrength : option number;
  maxMetal : option number;
  extractorRadius : option number;
  minWind : option number;
  maxWind : option number;
  startPositions : option (list (option StartPos.t));
  width : Z;
  height : Z;
  minDepth : number;
  maxDepth : number;
  mapInfo : option MapInfo.t
}.
End MapData.

(** ** parseMapData *)

(** [teams.map(obj => obj!.startPos)]: an undefined entry makes the
    property access throw. *)
Fixpoint teams_startPos (ts : list (option Team.t))
  : result (list (option StartPos.t)) :=
  match ts with
  | [] => Ok []
  | None :: _ => Throw (TypeError "startPos")
  | Some t :: ts' =>
      match teams_startPos ts' with
      | Ok ps => Ok (Team.startPos t :: ps)
      | Throw e => Throw e
      end
  end.

(** [mapInfo?.teams?.map(obj => obj!.startPos)] *)
Definition modern_startPositions (m : SpringMap.t)
  : result (option (list (option StartPos.t))) :=
  match SpringMap.mapInfo m ≫= MapInfo.teams with
  | None => Ok None
  | Some ts =>
      match teams_startPos ts with
      | Ok ps => Ok (Some ps)
      | Throw e => Throw e
      end
  end.

(** [smd?.startPositions], seen at the type of the record's field. *)
Definition legacy_startPositions (m : SpringMap.t)
  : option (list (option StartPos.t)) :=
  match SpringMap.smd m ≫= SMD.startPositions with
  | Some ps => Some (List.map Some ps)
  | None => None
  end.

Definition parseMapData (mapData : SpringMap.t) : result MapData.t :=
  match modern_startPositions mapData with
  | Throw e => Throw e
  | Ok modernPositions =>
      match SpringMap.smf mapData with
      | None => Throw (TypeError "mapWidthUnits")
      | Some smf =>
          Ok {|
            MapData.fileName := SpringMap.fileName mapData;
            MapData.fileNameWithExt := SpringMap.fileNameWithExt mapData;
            MapData.scriptName := trim (SpringMap.scriptName mapData);
            MapData.description :=
              or_else (SpringMap.mapInfo mapData ≫= MapInfo.description)
                      (SpringMap.smd mapData ≫= SMD.description);
            MapData.mapHardness :=
              (SpringMap.mapInfo mapData ≫= MapInfo.maphardness)
                ?? (SpringMap.smd mapData ≫= SMD.mapHardness);
            MapData.gravity :=
              (SpringMap.mapInfo mapData ≫= MapInfo.gravity)
                ?? (SpringMap.smd mapData ≫= SMD.gravity);
            MapData.tidalStrength :=
              (SpringMap.mapInfo mapData ≫= MapInfo.tidalStrength)
                ?? (SpringMap.smd mapData ≫= SMD.tidalStrength);
            MapData.maxMetal :=
              (SpringMap.mapInfo mapData ≫= MapInfo.maxMetal)
                ?? (SpringMap.smd mapData ≫= SMD.maxMetal);
            MapData.extractorRadius :=
              (SpringMap.mapInfo mapData ≫= MapInfo.extractorRadius)
                ?? (SpringMap.smd mapData ≫= SMD.extractorRadius);
            MapData.minWind :=
              ((SpringMap.mapInfo mapData ≫= MapInfo.atmosphere) ≫= Atmosphere.minWind)
                ?? (SpringMap.smd mapData ≫= SMD.minWind);
            MapData.maxWind :=
              ((SpringMap.mapInfo mapData ≫= MapInfo.atmosphere) ≫= Atmosphere.maxWind)
                ?? (SpringMap.smd mapData ≫= SMD.maxWind);
            MapData.startPositions :=
              modernPositions ?? legacy_startPositions mapData;
            MapData.width := SMF.mapWidthUnits smf * 2;
            MapData.height := SMF.mapHeightUnits smf * 2;
            MapData.minDepth := SpringMap.minHeight mapData;
            MapData.maxDepth := SpringMap.maxHeight mapData;
            MapData.mapInfo := SpringMap.mapInfo mapData
          |}
      end
  end.

(** ** The world outside the class *)

(** The collaborators of [CacheAPI], as they answer during one batch.  A
    promise that is rejected is [None] or [false]. *)
Record World : Type := {
  dataDir : string;
  path_join : string -> string -> string;
  fs_readdir : string -> option (list string);
  parser_parseMap : string -> option SpringMap.t;
  jimp_writeAsync : Jimp -> string -> bool;
  db_prepare : string -> bool;
  statement_get : string -> string -> bool;
  JSON_stringify : MapData.t -> string
}.

(** ** The state of a [CacheAPI] object and of what it writes to *)

Record MapCacheProgress : Type := {
  totalMapsToCache : nat;
  currentMapsCached : nat;
  currentMapCaching : string
}.

(** The two channels of [ipcMain.emit]. *)
Inductive Event : Type :=
  | map_cache_progress (progress : MapCacheProgress)
  | map_cached (mapData : MapData.t).

(** The two fields of the object ([cachedMaps], [preparedStatements]), the
    rows of the table [maps] of [cache.db], the files under [map-images],
    and, oldest first, what was sent over [ipcMain], what was written with
    [console.error] and the paths that were handed to the parser. *)
Record State : Type := {
  cachedMaps : gmap string MapData.t;
  preparedStatements : gmap string string;
  maps_table : gmap string string;
  image_files : gmap string Jimp;
  ipcMain : list Event;
  console : list (string * Err);
  parser_calls : list string
}.

Definition set_cachedMaps (f : gmap string MapData.t -> gmap string MapData.t)
  (s : State) : State :=
  {| cachedMaps := f (cachedMaps s);
     preparedStatements := preparedStatements s;
     maps_table := maps_table s;
     image_files := image_files s;
     ipcMain := ipcMain s;
     console := console s;
     parser_calls := parser_calls s |}.

Definition set_preparedStatements (f : gmap string string -> gmap string string)
  (s : State) : State :=
  {| cachedMaps := cachedMaps s;
     preparedStatements := f (preparedStatements s);
     maps_table := maps_table s;
     image_files := image_files s;
     ipcMain := ipcMain s;
     console := console s;
     parser_calls := parser_calls s |}.

Definition set_maps_table (f : gmap string string -> gmap string string)
  (s : State) : State :=
  {| cachedMaps := cachedMaps s;
     preparedStatements := preparedStatements s;
     maps_table := f (maps_table s);
     image_files := image_files s;
     ipcMain := ipcMain s;
     console := console s;
     parser_calls := parser_calls s |}.

Definition set_image_files (f : gmap string Jimp -> gmap string Jimp)
  (s : State) : State :=
  {| cachedMaps := cachedMaps s;
     preparedStatements := preparedStatements s;
     maps_table := maps_table s;
     image_files := f (image_files s);
     ipcMain := ipcMain s;
     console := console s;
     parser_calls := parser_calls s |}.

Definition set_ipcMain (f : list Event -> list Event) (s : State) : State :=
  {| cachedMaps := cachedMaps s;
     preparedStatements := preparedStatements s;
     maps_table := maps_table s;
     image_files := image_files s;
     ipcMain := f (ipcMain s);
     console := console s;
     parser_calls := parser_calls s |}.

Definition set_console (f : list (string * Err) -> list (string * Err))
  (s : State) : State :=
  {| cachedMaps := cachedMaps s;
     preparedStatements := preparedStatements s;
     maps_table := maps_table s;
     image_files := image_files s;
     ipcMain := ipcMain s;
     console := f (console s);
     parser_calls := parser_calls s |}.

Definition set_parser_calls (f : list string -> list string) (s : State) : State :=
  {| cachedMaps := cachedMaps s;
     preparedStatements := preparedStatements s;
     maps_table := maps_table s;
     image_files := image_files s;
     ipcMain := ipcMain s;
     console := console s;
     parser_calls := f (parser_calls s) |}.

(** ** Asynchronous methods: state and exceptions *)

(** An awaited call runs to its end before the next statement; it changes
    the state and either returns or throws. *)
Definition M (A : Type) : Type := State -> State * result A.

#[global] Instance M_ret : MRet M := fun A a s => (s, Ok a).

#[global] Instance M_bind : MBind M := fun A B k m s =>
  match m s with
  | (s', Ok a) => k a s'
  | (s', Throw e) => (s', Throw e)
  end.

Definition throw {A : Type} (e : Err) : M A := fun s => (s, Throw e).

Definition gets {A : Type} (f : State -> A) : M A := fun s => (s, Ok (f s)).

Definition modify (f : State -> State) : M unit := fun s => (f s, Ok tt).

Definition lift {A : Type} (r : result A) : M A := fun s => (s, r).

(** [try { body } catch (err) { handler }] *)
Definition try_catch (body : M unit) (handler : Err -> M unit) : M unit :=
  fun s =>
    match body s with
    | (s', Ok tt) => (s', Ok tt)
    | (s', Throw err) => handler err s'
    end.

(** ** Plain objects used as maps *)

(** [obj[key] = value]: the name [__proto__] reaches the prototype setter
    and creates no own property. *)
Definition assign {V : Type} (key : string) (value : V) (obj : gmap string V)
  : gmap string V :=
  if String.eqb key "__proto__" then obj else <[key := value]> obj.

(** [Object.keys(obj)] *)
Definition Object_keys {V : Type} (obj : gmap string V) : list string :=
  elements (dom obj).

(** [array.includes(x)] *)
Definition includes (array : list string) (x : string) : bool :=
  bool_decide (x ∈ array).

(** ** The calls into the collaborators *)

Definition readdir (w : World) (dir : string) : M (list string) :=
  match fs_readdir w dir with
  | Some names => mret names
  | None => throw (ReaddirError dir)
  end.

Definition parseMap (w : World) (mapPath : string) : M SpringMap.t :=
  modify (set_parser_calls (fun l => l ++ [mapPath]));;
  match parser_parseMap w mapPath with
  | Some map => mret map
  | None => throw (ParseError mapPath)
  end.

(** [image!.writeAsync(dest)] *)
Definition writeAsync (w : World) (image : option Jimp) (dest : string) : M unit :=
  match image with
  | None => throw (TypeError "writeAsync")
  | Some img =>
      if jimp_writeAsync w img dest
      then modify (set_image_files (fun fs => <[dest := img]> fs))
      else throw (WriteError dest)
  end.

(** [query.get(filename, data)] for the [REPLACE INTO maps] statement. *)
Definition query_get (w : World) (query filename data : string) : M unit :=
  if statement_get w filename data
  then modify (set_maps_table (fun t => <[filename := data]> t))
  else throw (SqliteError query).

(** [ipcMain.emit]: the event is recorded.  The class registers no
    listener, and here no listener throws; the module [Listened] below
    has the methods with listeners that may throw. *)
Definition emit (e : Event) : M unit :=
  modify (set_ipcMain (fun l => l ++ [e])).

Definition console_error (message : string) (err : Err) : M unit :=
  modify (set_console (fun l => l ++ [(message, err)])).

(** ** The methods of [CacheAPI] *)

Definition getMapsPath (w : World) : string :=
  path_join w (dataDir w) "maps".

Definition getMapImagesPath (w : World) : string :=
  path_join w (dataDir w) "map-images".

(** The property names that every plain object inherits from
    [Object.prototype]. *)
Definition Object_prototype_names : list string :=
  ["constructor"; "__defineGetter__"; "__defineSetter__"; "hasOwnProperty";
   "__lookupGetter__"; "__lookupSetter__"; "isPrototypeOf";
   "propertyIsEnumerable"; "toString"; "valueOf"; "__proto__";
   "toLocaleString"].

(** [this.preparedStatements[key]] is read here among the own keys of the
    object.  The source reads through the prototype chain, so the two
    agree for the keys that are not in [Object_prototype_names]; the class
    uses the keys [getMaps] and [addMap] only. *)
Definition prepareStatement (w : World) (key statement : string) : M string :=
  prepared ← gets (fun s => preparedStatements s !! key);
  match prepared with
  | Some query => mret query
  | None =>
      if db_prepare w statement
      then modify (set_preparedStatements (assign key statement));;
           mret statement
      else throw (SqliteError statement)
  end.

(** The closure [destPath] of [cacheMap]. *)
Definition destPath (w : World) (mapData : MapData.t) (name : string) : string :=
  path_join w (getMapImagesPath w)
    (MapData.fileName mapData +:+ "-" +:+ name +:+ ".png").

Definition addMap_sql : string :=
  "REPLACE INTO maps (filename, data) VALUES (?, ?)".

(** The body of the [try] block of [cacheMap]. *)
Definition cacheMap_try (w : World) (mapFilePath : string) : M unit :=
  map ← parseMap w mapFilePath;
  mapData ← lift (parseMapData map);
  writeAsync w (SpringMap.textureMap map) (destPath w mapData "texture");;
  writeAsync w (SpringMap.metalMap map) (destPath w mapData "metal");;
  writeAsync w (SpringMap.heightMap map) (destPath w mapData "height");;
  writeAsync w (SpringMap.typeMap map) (destPath w mapData "type");;
  query ← prepareStatement w "addMap" addMap_sql;
  query_get w query (MapData.fileNameWithExt mapData) (JSON_stringify w mapData);;
  modify (set_cachedMaps (assign (MapData.fileNameWithExt mapData) mapData));;
  emit (map_cached mapData).

(** The message of the [catch] clause. *)
Definition caching_error (mapFilePath : string) : string :=
  "There was an error caching map: " +:+ mapFilePath.

Definition cacheMap (w : World) (mapFilePath : string) : M unit :=
  try_catch (cacheMap_try w mapFilePath)
    (fun err => console_error (caching_error mapFilePath) err).

(** The two archive extensions. *)
Definition recognized (fileName : string) : bool :=
  endsWith fileName ".sd7" || endsWith fileName ".sdz".

(** [path.join(this.getMapsPath(), mapFileName)] *)
Definition mapFilePath (w : World) (mapFileName : string) : string :=
  path_join w (getMapsPath w) mapFileName.

(** The filter of [cacheMaps]. *)
Definition mapsToCache (recacheAll : bool) (cachedMapFileNames mapFileNames : list string)
  : list string :=
  List.filter
    (fun fileName =>
       (recacheAll || negb (includes cachedMapFileNames fileName))
       && recognized fileName)
    mapFileNames.

(** The [for] loop of [cacheMaps]; [total] is [mapsToCache.length]. *)
Fixpoint cacheMaps_loop (w : World) (total : nat) (rest : list string)
  (mapsCached : nat) : M unit :=
  match rest with
  | [] => mret tt
  | mapFileName :: rest' =>
      emit (map_cache_progress
              {| totalMapsToCache := total;
                 currentMapsCached := mapsCached;
                 currentMapCaching := mapFileName |});;
      cacheMap w (mapFilePath w mapFileName);;
      cacheMaps_loop w total rest' (S mapsCached)
  end.

Definition cacheMaps (w : World) (recacheAll : bool) : M unit :=
  mapFileNames ← readdir w (getMapsPath w);
  cachedMapFileNames ← gets (fun s => Object_keys (cachedMaps s));
  let toCache := mapsToCache recacheAll cachedMapFileNames mapFileNames in
  cacheMaps_loop w (length toCache) toCache 0.

(** ** Listeners on [ipcMain] *)

(** [ipcMain] is an event emitter: [emit] calls the listeners of the
    channel one after the other, in the same turn, and what a listener
    throws leaves [emit].  The class registers no listener; the rest of
    the application may.  The methods are given here once more with the
    listeners as a parameter; with listeners that never throw they are the
    methods above.  A listener is taken to read the event and to return or
    throw: it does not change the object, the table or the files. *)
Module Listened.

(** What the listeners of its channel do with an event, given the events
    that were sent before it: [None] when each of them returns, [Some e]
    when one of them throws [e]. *)
Definition Listeners : Type := list Event -> Event -> option Err.

(** No listener, or listeners that always return. *)
Definition silent : Listeners := fun _ _ => None.

Definition emit (L : Listeners) (e : Event) : M unit :=
  sent ← gets ipcMain;
  modify (set_ipcMain (fun l => l ++ [e]));;
  match L sent e with
  | None => mret tt
  | Some err => throw err
  end.

Definition cacheMap_try (L : Listeners) (w : World) (mapFilePath : string)
  : M unit :=
  map ← parseMap w mapFilePath;
  mapData ← lift (parseMapData map);
  writeAsync w (SpringMap.textureMap map) (destPath w mapData "texture");;
  writeAsync w (SpringMap.metalMap map) (destPath w mapData "metal");;
  writeAsync w (SpringMap.heightMap map) (destPath w mapData "height");;
  writeAsync w (SpringMap.typeMap map) (destPath w mapData "type");;
  query ← prepareStatement w "addMap" addMap_sql;
  query_get w query (MapData.fileNameWithExt mapData) (JSON_stringify w mapData);;
  modify (set_cachedMaps (assign (MapData.fileNameWithExt mapData) mapData));;
  emit L (map_cached mapData).

Definition cacheMap (L : Listeners) (w : World) (mapFilePath : string) : M unit :=
  try_catch (cacheMap_try L w mapFilePath)
    (fun err => console_error (caching_error mapFilePath) err).

Fixpoint cacheMaps_loop (L : Listeners) (w : World) (total : nat)
  (rest : list string) (mapsCached : nat) : M unit :=
  match rest with
  | [] => mret tt
  | mapFileName :: rest' =>
      emit L (map_cache_progress
                {| totalMapsToCache := total;
                   currentMapsCached := mapsCached;
                   currentMapCaching := mapFileName |});;
      cacheMap L w (mapFilePath w mapFileName);;
      cacheMaps_loop L w total rest' (S mapsCached)
  end.

Definition cacheMaps (L : Listeners) (w : World) (recacheAll : bool) : M unit :=
  mapFileNames ← readdir w (getMapsPath w);
  cachedMapFileNames ← gets (fun s => Object_keys (cachedMaps s));
  let toCache := mapsToCache recacheAll cachedMapFileNames mapFileNames in
  cacheMaps_loop L w (length toCache) toCache 0.

End Listened.

(** ** Concrete archives and worlds, for evaluation *)

Module Fixture.

Definition join (a b : string) : string := a +:+ "/" +:+ b.

Definition raster (n : Z) : Jimp := {| bitmap := [n] |}.

Definition q (n : Z) : number := QArith_base.Qmake n 1.

Definition noMapInfo : MapInfo.t :=
  MapInfo.mk None None None None None None None None.

Definition noSmd : SMD.t :=
  SMD.mk None None None None None None None None None.

(** A well-formed archive [name.ext] with the given metadata blocks. *)
Definition springMap (name ext : string) (mapInfo : option MapInfo.t)
  (smd : option SMD.t) (widthUnits heightUnits : Z) : SpringMap.t :=
  {| SpringMap.fileName := name;
     SpringMap.fileNameWithExt := name +:+ ext;
     SpringMap.scriptName := " " +:+ name +:+ " 1.0 ";
     SpringMap.minHeight := q 0;
     SpringMap.maxHeight := q 100;
     SpringMap.mapInfo := mapInfo;
     SpringMap.smd := smd;
     SpringMap.smf := Some (SMF.mk widthUnits heightUnits);
     SpringMap.textureMap := Some (raster 1);
     SpringMap.metalMap := Some (raster 2);
     SpringMap.heightMap := Some (raster 3);
     SpringMap.typeMap := Some (raster 4) |}.

Definition plain (name ext : string) : SpringMap.t :=
  springMap name ext None (Some noSmd) 4 3.


(** A modern description that is present and empty, next to a legacy
    description. *)
Definition emptyDescription : SpringMap.t :=
  springMap "blank" ".sd7"
    (Some (MapInfo.mk (Some EmptyString) None None None None None None None))
    (Some (SMD.mk (Some "Legacy text") None None None None None None None None))
    4 3.

(** A modern description, and no legacy block at all. *)
Definition modernDescription : SpringMap.t :=
  springMap "modern" ".sd7"
    (Some (MapInfo.mk (Some "Modern text") None None None None None None None))
    None 4 3.

(** A parser that knows the archives of an association list, by path. *)
Fixpoint parserOf (archives : list (string * SpringMap.t)) (mapPath : string)
  : option SpringMap.t :=
  match archives with
  | [] => None
  | (p, m) :: rest => if String.eqb p mapPath then Some m else parserOf rest mapPath
  end.

(** A world in which the directory lists [names], the parser answers as
    [parser] and every write succeeds. *)
Definition world (names : list string) (parser : string -> option SpringMap.t)
  : World :=
  {| dataDir := "/data";
     path_join := join;
     fs_readdir := fun _ => Some names;
     parser_parseMap := parser;
     jimp_writeAsync := fun _ _ => true;
     db_prepare := fun _ => true;
     statement_get := fun _ _ => true;
     JSON_stringify := fun d => "json:" +:+ MapData.fileNameWithExt d |}.

Definition fresh : State :=
  {| cachedMaps := ∅;
     preparedStatements := ∅;
     maps_table := ∅;
     image_files := ∅;
     ipcMain := [];
     console := [];
     parser_calls := [] |}.

(** A parser that accepts [a.sd7] and [c.sdz] and rejects the rest. *)
Definition twoValid : string -> option SpringMap.t :=
  parserOf [("/data/maps/a.sd7", plain "a" ".sd7");
            ("/data/maps/c.sdz", plain "c" ".sdz")].

(** Three archives, the second of which the parser rejects. *)
Definition threeArchives : World :=
  world ["a.sd7"; "b.sd7"; "c.sdz"; "readme.txt"] twoValid.

(** A directory in which every archive is well formed. *)
Definition healthy : World :=
  world ["a.sd7"; "c.sdz"; "readme.txt"] twoValid.

(** The record that the index holds for [b.sd7] from an earlier run. *)
Definition oldRecord : MapData.t :=
  {| MapData.fileName := "b";
     MapData.fileNameWithExt := "b.sd7";
     MapData.scriptName := "b 0.9";
     MapData.description := None;
     MapData.mapHardness := None;
     MapData.gravity := None;
     MapData.tidalStrength := None;
     MapData.maxMetal := None;
     MapData.extractorRadius := None;
     MapData.minWind := None;
     MapData.maxWind := None;
     MapData.startPositions := None;
     MapData.width := 8;
     MapData.height := 6;
     MapData.minDepth := q 0;
     MapData.maxDepth := q 100;
     MapData.mapInfo := None |}.

(** A state whose index already holds [b.sd7]. *)
Definition indexed : State :=
  set_cachedMaps (fun _ => {["b.sd7" := oldRecord]}) fresh.


End Fixture.

(** ** Vocabulary of the statements *)

(** The parser reports the archives of the list [l] under their names:
    what it returns for the path of an entry [f] of [l] has [f] as its
    [fileNameWithExt]. *)
Definition names_on (w : World) (l : list string) : Prop :=
  ∀ f m, f ∈ l →
         parser_parseMap w (mapFilePath w f) = Some m →
         SpringMap.fileNameWithExt m = f.

(** The parser reports every entry of the maps directory under its
    name.  Only the names that the directory lists are concerned: they
    are base names, which [path.join] appends as they are, whereas two
    other strings (with a separator or dots in them) can be joined to the
    same path. *)
Definition parser_names (w : World) : Prop :=
  ∀ names, fs_readdir w (getMapsPath w) = Some names → names_on w names.

(** The archive [f] is processed to the end, whatever the state. *)
Definition processes (w : World) (f : string) : Prop :=
  ∀ s, snd (cacheMap_try w (mapFilePath w f) s) = Ok tt.

(** The record that the archive [f] yields. *)
Definition record_of (w : World) (f : string) (d : MapData.t) : Prop :=
  ∃ m, parser_parseMap w (mapFilePath w f) = Some m ∧ parseMapData m = Ok d.


(** [image!.writeAsync(dest)] does not complete. *)
Definition write_fails (w : World) (image : option Jimp) (dest : string) : Prop :=
  match image with
  | None => True
  | Some img => jimp_writeAsync w img dest = false
  end.

(** The steps of one unit of work at which it can fail, in the order of
    the [try] block. *)
Inductive item_failure (w : World) (p : string) (s : State) : Prop :=
  | extraction_rejected :
      parser_parseMap w p = None → item_failure w p s
  | extraction_incomplete m e :
      parser_parseMap w p = Some m → parseMapData m = Throw e →
      item_failure w p s
  | texture_write m d :
      parser_parseMap w p = Some m → parseMapData m = Ok d →
      write_fails w (SpringMap.textureMap m) (destPath w d "texture") →
      item_failure w p s
  | metal_write m d :
      parser_parseMap w p = Some m → parseMapData m = Ok d →
      write_fails w (SpringMap.metalMap m) (destPath w d "metal") →
      item_failure w p s
  | height_write m d :
      parser_parseMap w p = Some m → parseMapData m = Ok d →
      write_fails w (SpringMap.heightMap m) (destPath w d "height") →
      item_failure w p s
  | type_write m d :
      parser_parseMap w p = Some m → parseMapData m = Ok d →
      write_fails w (SpringMap.typeMap m) (destPath w d "type") →
      item_failure w p s
  | metadata_prepare m d :
      parser_parseMap w p = Some m → parseMapData m = Ok d →
      preparedStatements s !! "addMap" = None →
      db_prepare w addMap_sql = false →
      item_failure w p s
  | metadata_write m d :
      parser_parseMap w p = Some m → parseMapData m = Ok d →
      statement_get w (MapData.fileNameWithExt d) (JSON_stringify w d) = false →
      item_failure w p s.



Definition isItemStarted (e : Event) : bool :=
  match e with
  | map_cache_progress _ => true
  | map_cached _ => false
  end.

Definition isItemCompleted (e : Event) : bool :=
  match e with
  | map_cache_progress _ => false
  | map_cached _ => true
  end.

(** How many items were announced, and how many were reported as cached,
    within a sequence of events. *)
Definition started_in (evs : list Event) : nat :=
  length (List.filter isItemStarted evs).

Definition completed_in (evs : list Event) : nat :=
  length (List.filter isItemCompleted evs).

Definition progress (total n : nat) (f : string) : Event :=
  map_cache_progress
    {| totalMapsToCache := total;
       currentMapsCached := n;
       currentMapCaching := f |}.

(** The events of one item: its announcement, then its record when the
    item ran to the end. *)
Inductive item_events (w : World) (total n : nat) (f : string)
  : list Event → Prop :=
  | item_failed :
      item_events w total n f [progress total n f]
  | item_cached m d :
      parser_parseMap w (mapFilePath w f) = Some m →
      parseMapData m = Ok d →
      item_events w total n f [progress total n f; map_cached d].

(** The events of the items [l], the first of which is announced with the
    count [n]. *)
Inductive batch_events (w : World) (total : nat)
  : nat → list string → list Event → Prop :=
  | batch_done n :
      batch_events w total n [] []
  | batch_item n f l evs1 evs2 :
      item_events w total n f evs1 →
      batch_events w total (S n) l evs2 →
      batch_events w total n (f :: l) (evs1 ++ evs2).

(** The work set of a batch over the listing [names]. *)
Definition workSet (recacheAll : bool) (s : State) (names : list string)
  : list string :=
  mapsToCache recacheAll (Object_keys (cachedMaps s)) names.

(** What the [try] block of each item of the loop did, in the order of
    the loop and from the state in which the loop ran it: [Ok] when it
    ran to the end, [Throw] with what it threw. *)
Fixpoint loop_outcomes (w : World) (total : nat) (rest : list string)
  (mapsCached : nat) (s : State) : list (string * result unit) :=
  match rest with
  | [] => []
  | mapFileName :: rest' =>
      let s0 :=
        set_ipcMain
          (fun evs => evs ++ [progress total mapsCached mapFileName]) s in
      (mapFileName, snd (cacheMap_try w (mapFilePath w mapFileName) s0))
        :: loop_outcomes w total rest' (S mapsCached)
             (fst (cacheMap w (mapFilePath w mapFileName) s0))
  end.

(** The same for a batch; there is no item when the directory cannot be
    listed. *)
Definition outcomes (w : World) (recacheAll : bool) (s : State)
  : list (string * result unit) :=
  match fs_readdir w (getMapsPath w) with
  | Some names =>
      loop_outcomes w (length (workSet recacheAll s names))
        (workSet recacheAll s names) 0 s
  | None => []
  end.

(** The processing of [f] failed in the batch: it was attempted, it
    threw, and no attempt of it ran to the end (a directory lists a name
    once, so that there is one attempt). *)
Definition failed_in (w : World) (recacheAll : bool) (s : State) (f : string)
  : Prop :=
  (∃ e, (f, Throw e) ∈ outcomes w recacheAll s)
  ∧ (f, Ok tt) ∉ outcomes w recacheAll s.

(** A run of incremental batches, one per world, each starting from the
    state the previous one left. *)
Fixpoint incremental_batches (ws : list World) (s : State) : State :=
  match ws with
  | [] => s
  | w :: ws' => incremental_batches ws' (fst (cacheMaps w false s))
  end.

(** ** Start-up: [init] *)

(** The collaborators that only [init] calls.  [statement_all] is
    [query.all()] for the [SELECT * FROM maps] statement, as a function of
    the rows the table holds; [ipcMain_handle] tells, from the channels
    that have a handler already, whether a handler can be added. *)
Record Startup : Type := {
  userDataDir : string;
  sqlite_open : string -> bool;
  db_run : string -> bool;
  statement_all : gmap string string -> option (list (string * string));
  JSON_parse : string -> option MapData.t;
  ipcMain_handle : list string -> string -> bool
}.

(** What [init] can reject with: an error of the cache methods, or one of
    its own steps. *)
Inductive StartupErr : Type :=
  | CacheError (e : Err)
  | OpenError (filename : string)
  | RunError (sql : string)
  | AllError (query : string)
  | SyntaxError (data : string)
  | HandleError (channel : string).

Inductive settled (A : Type) : Type :=
  | Fulfilled (a : A)
  | Rejected (e : StartupErr).
Arguments Fulfilled {A} a.
Arguments Rejected {A} e.

(** The object with its database handle ([this.db], the file that was
    opened) and the channels for which [ipcMain.handle] was called. *)
Record Process : Type := {
  cache : State;
  database : option string;
  handlers : list string
}.

Definition set_cache (f : State -> State) (a : Process) : Process :=
  {| cache := f (cache a); database := database a; handlers := handlers a |}.

Definition P (A : Type) : Type := Process -> Process * settled A.

Definition retP {A : Type} (x : A) : P A := fun a => (a, Fulfilled x).

Definition bindP {A B : Type} (m : P A) (k : A -> P B) : P B :=
  fun a =>
    match m a with
    | (a', Fulfilled x) => k x a'
    | (a', Rejected e) => (a', Rejected e)
    end.

Definition rejectP {A : Type} (e : StartupErr) : P A :=
  fun a => (a, Rejected e).

(** A method of the cache, awaited from [init]. *)
Definition liftP {A : Type} (m : M A) : P A :=
  fun a =>
    match m (cache a) with
    | (s', Ok x) => (set_cache (fun _ => s') a, Fulfilled x)
    | (s', Throw e) => (set_cache (fun _ => s') a, Rejected (CacheError e))
    end.

(** A call that is not awaited: whether it fulfils or rejects does not
    reach the caller.  The state is the one the call leaves once it has
    settled. *)
Definition detached {A : Type} (m : P A) : P unit :=
  fun a => (fst (m a), Fulfilled tt).

Definition cache_db (w : World) (b : Startup) : string :=
  path_join w (userDataDir b) "cache.db".

Definition createTable_sql : string :=
  "CREATE TABLE IF NOT EXISTS maps (filename TEXT PRIMARY KEY, data TEXT)".

Definition getMaps_sql : string := "SELECT * FROM maps".

(** [this.db = await open({ filename, driver })] *)
Definition open (b : Startup) (filename : string) : P unit :=
  fun a =>
    if sqlite_open b filename
    then ({| cache := cache a;
             database := Some filename;
             handlers := handlers a |}, Fulfilled tt)
    else (a, Rejected (OpenError filename)).

(** [await this.db.run(sql)]; the table is created when it is not there,
    and its rows are left alone when it is. *)
Definition run (b : Startup) (sql : string) : P unit :=
  fun a =>
    if db_run b sql then (a, Fulfilled tt) else (a, Rejected (RunError sql)).

(** [await query.all()] *)
Definition all (b : Startup) (query : string) : P (list (string * string)) :=
  fun a =>
    match statement_all b (maps_table (cache a)) with
    | Some rows => (a, Fulfilled rows)
    | None => (a, Rejected (AllError query))
    end.

(** [maps.forEach(map => { ... })]: each row is parsed and assigned in
    turn; a row that does not parse throws out of the loop. *)
Fixpoint forEach_row (b : Startup) (maps : list (string * string)) : P unit :=
  match maps with
  | [] => retP tt
  | (filename, data) :: rest =>
      match JSON_parse b data with
      | None => rejectP (SyntaxError data)
      | Some mapData =>
          bindP (liftP (modify (set_cachedMaps (assign filename mapData))))
                (fun _ => forEach_row b rest)
      end
  end.

(** [ipcMain.handle(channel, listener)] *)
Definition handle (b : Startup) (channel : string) : P unit :=
  fun a =>
    if ipcMain_handle b (handlers a) channel
    then ({| cache := cache a;
             database := database a;
             handlers := handlers a ++ [channel] |}, Fulfilled tt)
    else (a, Rejected (HandleError channel)).

(** [init], up to the registration of the two handlers.  The field
    [verbose] of the class is [false], so the two tracing branches are not
    taken. *)
Definition init_load (w : World) (b : Startup) : P unit :=
  bindP (open b (cache_db w b)) (fun _ =>
  bindP (run b createTable_sql) (fun _ =>
  bindP (liftP (prepareStatement w "getMaps" getMaps_sql)) (fun query =>
  bindP (all b query) (fun maps =>
  bindP (forEach_row b maps) (fun _ =>
  bindP (handle b "getCachedMaps") (fun _ =>
  handle b "getCachedMap")))))).

(** [init]: the load, then [this.cacheMaps()], which is not awaited. *)
Definition init (w : World) (b : Startup) : P unit :=
  bindP (init_load w b) (fun _ =>
  detached (liftP (cacheMaps w false))).

(** ** Vocabulary of the further statements *)

(** The index has no own property named [__proto__]; an assignment
    cannot create one. *)
Definition own_keys (s : State) : Prop :=
  cachedMaps s !! "__proto__" = None.

(** Every record of the index is in the table, serialized. *)
Definition index_in_table (w : World) (s : State) : Prop :=
  ∀ k d, cachedMaps s !! k = Some d →
         maps_table s !! k = Some (JSON_stringify w d).

(** The table and the index hold the same keys, and each row is the
    serialized record of its key. *)
Definition synced (w : World) (s : State) : Prop :=
  ∀ k, maps_table s !! k = JSON_stringify w <$> (cachedMaps s !! k).

(** Every record of the index has its four image files. *)
Definition images_present (w : World) (s : State) : Prop :=
  ∀ k d name,
    cachedMaps s !! k = Some d →
    name ∈ ["texture"; "metal"; "height"; "type"] →
    is_Some (image_files s !! destPath w d name).

(** The names announced by a sequence of events, in order. *)
Fixpoint started_names (evs : list Event) : list string :=
  match evs with
  | [] => []
  | map_cache_progress p :: evs' => currentMapCaching p :: started_names evs'
  | map_cached _ :: evs' => started_names evs'
  end.

(** The list of teams has an undefined entry. *)
Definition has_hole (ts : list (option Team.t)) : Prop := None ∈ ts.

(** The index after the rows [maps] were assigned in turn, each parsed. *)
Definition load_rows (b : Startup) (maps : list (string * string))
  (index : gmap string MapData.t) : gmap string MapData.t :=
  foldl (fun index row =>
           match JSON_parse b row.2 with
           | Some mapData => assign row.1 mapData index
           | None => index
           end) index maps.

(** The steps of [init] before the rows are read all succeed, and
    [query.all()] returns [rows]. *)
Definition opens (w : World) (b : Startup) (a : Process)
  (rows : list (string * string)) : Prop :=
  sqlite_open b (cache_db w b) = true
  ∧ db_run b createTable_sql = true
  ∧ (is_Some (preparedStatements (cache a) !! "getMaps")
     ∨ db_prepare w getMaps_sql = true)
  ∧ statement_all b (maps_table (cache a)) = Some rows.

(** A process that starts on the storage another one left: a new object,
    no database handle, no handler, the same table and image files. *)
Definition restart (s : State) : Process :=
  {| cache :=
       {| cachedMaps := ∅;
          preparedStatements := ∅;
          maps_table := maps_table s;
          image_files := image_files s;
          ipcMain := [];
          console := [];
          parser_calls := [] |};
     database := None;
     handlers := [] |}.

Module Cases.

(** A database that opens, lists the rows of the table and parses the
    two rows that [Fixture.world] writes for [a.sd7] and [c.sdz]. *)
Definition parse (data : string) : option MapData.t :=
  if String.eqb data "json:a.sd7"
  then match parseMapData (Fixture.plain "a" ".sd7") with
       | Ok d => Some d
       | Throw _ => None
       end
  else if String.eqb data "json:c.sdz"
  then match parseMapData (Fixture.plain "c" ".sdz") with
       | Ok d => Some d
       | Throw _ => None
       end
  else None.

Definition startup : Startup :=
  {| userDataDir := "/user";
     sqlite_open := fun _ => true;
     db_run := fun _ => true;
     statement_all := fun t => Some (map_to_list t);
     JSON_parse := parse;
     ipcMain_handle := fun _ _ => true |}.

(** The state that a batch over the healthy directory leaves. *)
Definition cached : State :=
  fst (cacheMaps Fixture.healthy false Fixture.fresh).

(** A table with a row that is not JSON. *)
Definition corruptRow : Process :=
  restart (set_maps_table (fun t => <["z.sd7" := "not json"]> t) cached).

(** A world in which the statement that writes the row always fails. *)
Definition readOnly : World :=
  {| dataDir := "/data";
     path_join := Fixture.join;
     fs_readdir := fun _ => Some ["a.sd7"];
     parser_parseMap := Fixture.twoValid;
     jimp_writeAsync := fun _ _ => true;
     db_prepare := fun _ => true;
     statement_get := fun _ _ => false;
     JSON_stringify := fun d => "json:" +:+ MapData.fileNameWithExt d |}.

(** An archive whose modern block has an empty list of teams while its
    legacy block has two start positions. *)
Definition emptyTeams : SpringMap.t :=
  Fixture.springMap "teams" ".sd7"
    (Some (MapInfo.mk None None None None None None None (Some [])))
    (Some (SMD.mk None None None None None None None None
             (Some [StartPos.mk (Fixture.q 1) (Fixture.q 2);
                    StartPos.mk (Fixture.q 3) (Fixture.q 4)])))
    4 3.

(** The archive [a.sdz], with rasters of its own; its base name is that
    of [a.sd7]. *)
Definition twin : SpringMap.t :=
  {| SpringMap.fileName := "a";
     SpringMap.fileNameWithExt := "a.sdz";
     SpringMap.scriptName := "a 2.0";
     SpringMap.minHeight := Fixture.q 0;
     SpringMap.maxHeight := Fixture.q 100;
     SpringMap.mapInfo := None;
     SpringMap.smd := None;
     SpringMap.smf := Some (SMF.mk 4 3);
     SpringMap.textureMap := Some (Fixture.raster 5);
     SpringMap.metalMap := Some (Fixture.raster 6);
     SpringMap.heightMap := Some (Fixture.raster 7);
     SpringMap.typeMap := Some (Fixture.raster 8) |}.

(** A directory with [a.sd7] and [a.sdz]. *)
Definition twins : World :=
  Fixture.world ["a.sd7"; "a.sdz"]
    (Fixture.parserOf [("/data/maps/a.sd7", Fixture.plain "a" ".sd7");
                       ("/data/maps/a.sdz", twin)]).

(** An archive without the header of the map file. *)
Definition noHeader : SpringMap.t :=
  {| SpringMap.fileName := "h";
     SpringMap.fileNameWithExt := "h.sd7";
     SpringMap.scriptName := "h";
     SpringMap.minHeight := Fixture.q 0;
     SpringMap.maxHeight := Fixture.q 0;
     SpringMap.mapInfo := None;
     SpringMap.smd := None;
     SpringMap.smf := None;
     SpringMap.textureMap := None;
     SpringMap.metalMap := None;
     SpringMap.heightMap := None;
     SpringMap.typeMap := None |}.

(** A world whose maps directory cannot be listed. *)
Definition unlisted : World :=
  {| dataDir := "/data";
     path_join := Fixture.join;
     fs_readdir := fun _ => None;
     parser_parseMap := Fixture.twoValid;
     jimp_writeAsync := fun _ _ => true;
     db_prepare := fun _ => true;
     statement_get := fun _ _ => true;
     JSON_stringify := fun d => "json:" +:+ MapData.fileNameWithExt d |}.

(** Listeners of which one throws at the announcement of [b.sd7]. *)
Definition stopsAtB : Listened.Listeners :=
  fun _ e =>
    match e with
    | map_cache_progress p =>
        if String.eqb (currentMapCaching p) "b.sd7"
        then Some (TypeError "listener")
        else None
    | map_cached _ => None
    end.


End Cases.


(** Through the incremental batches of the worlds [ws], run one after the
    other from [s], the parser reports the listed archives under their
    names and no attempt of [f] runs to the end. *)
Fixpoint still_failing (f : string) (ws : list World) (s : State) : Prop :=
  match ws with
  | [] => True
  | w :: ws' =>
      parser_names w
      ∧ ((f, Ok tt) ∉ outcomes w false s)
      ∧ still_failing f ws' (fst (cacheMaps w false s))
  end.

(** * Properties *)

(** ** Strings *)

Example endsWith_sd7 : endsWith "dsd.sd7" ".sd7" = true.
Proof. reflexivity. Qed.

Example endsWith_short : endsWith "d7" ".sd7" = false.
Proof. reflexivity. Qed.

Example endsWith_case : endsWith "dsd.SD7" ".sd7" = false.
Proof. reflexivity. Qed.

Example trim_both : trim "  Red Comet  " = "Red Comet".
Proof. reflexivity. Qed.

(** A no-break space (U+00A0) in front and an ideographic space (U+3000)
    behind. *)
Example trim_unicode :
  trim (String (ascii_of_nat 194) (String (ascii_of_nat 160)
          ("Red Comet"
           +:+ String (ascii_of_nat 227) (String (ascii_of_nat 128)
                 (String (ascii_of_nat 128) EmptyString)))))
  = "Red Comet".
Proof. reflexivity. Qed.

(** ** One unit of work *)

Ltac unfold_M :=
  unfold cacheMap, try_catch, cacheMap_try, parseMap, writeAsync, query_get,
    prepareStatement, emit, console_error, lift, modify, gets, throw,
    mbind, M_bind, mret, M_ret in *; cbn [fst snd] in *.

Ltac step_M :=
  match goal with
  | |- context [match ?x with _ => _ end] =>
      lazymatch x with
      | context [match _ with _ => _ end] => fail
      | _ => destruct x eqn:?
      end
  | H : context [match ?x with _ => _ end] |- _ =>
      lazymatch x with
      | context [match _ with _ => _ end] => fail
      | _ => destruct x eqn:?
      end
  end; cbn [fst snd] in *; try discriminate.

Lemma cacheMap_throw (w : World) (p : string) (s : State) (e : Err) :
  snd (cacheMap_try w p s) = Throw e →
  cachedMaps (fst (cacheMap w p s)) = cachedMaps s
  ∧ maps_table (fst (cacheMap w p s)) = maps_table s
  ∧ ipcMain (fst (cacheMap w p s)) = ipcMain s
  ∧ parser_calls (fst (cacheMap w p s)) = parser_calls s ++ [p]
  ∧ console (fst (cacheMap w p s)) = console s ++ [(caching_error p, e)].
Proof.
  unfold_M. intros H. repeat step_M.
  all: simplify_eq; cbn; done.
Qed.

Lemma cacheMap_ok (w : World) (p : string) (s : State) :
  snd (cacheMap_try w p s) = Ok tt →
  ∃ m d,
    parser_parseMap w p = Some m
    ∧ parseMapData m = Ok d
    ∧ cachedMaps (fst (cacheMap w p s))
      = assign (MapData.fileNameWithExt d) d (cachedMaps s)
    ∧ maps_table (fst (cacheMap w p s))
      = <[MapData.fileNameWithExt d := JSON_stringify w d]> (maps_table s)
    ∧ ipcMain (fst (cacheMap w p s)) = ipcMain s ++ [map_cached d]
    ∧ parser_calls (fst (cacheMap w p s)) = parser_calls s ++ [p]
    ∧ console (fst (cacheMap w p s)) = console s.
Proof.
  unfold_M. intros H. repeat step_M.
  all: eexists _, _; cbn; done.
Qed.

(** The [catch] clause takes every exception: [cacheMap] returns. *)
Lemma cacheMap_returns (w : World) (p : string) (s : State) :
  snd (cacheMap w p s) = Ok tt.
Proof.
  unfold_M. repeat step_M. all: done.
Qed.

Lemma cacheMap_try_cases (w : World) (p : string) (s : State) :
  snd (cacheMap_try w p s) = Ok tt ∨ ∃ e, snd (cacheMap_try w p s) = Throw e.
Proof.
  destruct (snd (cacheMap_try w p s)) as [[]|e]; eauto.
Qed.


Lemma throws_item_failure (w : World) (p : string) (s : State) (e : Err) :
  snd (cacheMap_try w p s) = Throw e → item_failure w p s.
Proof.
  unfold_M. intros H. repeat step_M.
  all: simplify_eq.
  all: try (by eapply extraction_rejected).
  all: try (by eapply extraction_incomplete).
  all: try (by eapply metadata_write).
  all: try (by eapply metadata_prepare).
  all: try (by eapply type_write; [done..|unfold write_fails; by rewrite ?Heqo4, ?Heqo3]).
  all: try (by eapply height_write; [done..|unfold write_fails; by rewrite ?Heqo3, ?Heqo2]).
  all: try (by eapply metal_write; [done..|unfold write_fails; by rewrite ?Heqo2, ?Heqo1]).
  all: try (by eapply texture_write; [done..|unfold write_fails; by rewrite ?Heqo1, ?Heqo0]).
Qed.

(** ** Objects, keys and the work set *)

Lemma lookup_assign_ne {V : Type} (key k : string) (v : V) (obj : gmap string V) :
  key ≠ k → assign key v obj !! k = obj !! k.
Proof.
  intros Hne. unfold assign. destruct (String.eqb key "__proto__"); [done|].
  by rewrite lookup_insert_ne.
Qed.

Lemma lookup_assign_eq {V : Type} (key : string) (v : V) (obj : gmap string V) :
  key ≠ "__proto__" → assign key v obj !! key = Some v.
Proof.
  intros Hne. unfold assign.
  destruct (String.eqb_spec key "__proto__"); [done|].
  by rewrite lookup_insert_eq.
Qed.

Lemma lookup_assign_is_Some {V : Type} (key k : string) (v : V)
  (obj : gmap string V) :
  is_Some (obj !! k) → is_Some (assign key v obj !! k).
Proof.
  intros Hk. unfold assign. destruct (String.eqb key "__proto__"); [done|].
  destruct (decide (key = k)) as [->|Hne].
  - rewrite lookup_insert_eq. eauto.
  - by rewrite lookup_insert_ne.
Qed.

Lemma recognized_not_proto (f : string) :
  recognized f = true → f ≠ "__proto__".
Proof. intros H ->. vm_compute in H. discriminate. Qed.

Lemma includes_keys {V : Type} (obj : gmap string V) (f : string) :
  includes (Object_keys obj) f = true ↔ is_Some (obj !! f).
Proof.
  unfold includes, Object_keys.
  rewrite bool_decide_eq_true, elem_of_elements. apply elem_of_dom.
Qed.

Lemma includes_keys_false {V : Type} (obj : gmap string V) (f : string) :
  includes (Object_keys obj) f = false ↔ obj !! f = None.
Proof.
  rewrite <- not_true_iff_false, includes_keys, eq_None_not_Some. done.
Qed.

Lemma elem_of_workSet (recacheAll : bool) (s : State) (names : list string)
  (f : string) :
  f ∈ workSet recacheAll s names
  ↔ f ∈ names
    ∧ (recacheAll = true ∨ cachedMaps s !! f = None)
    ∧ recognized f = true.
Proof.
  unfold workSet, mapsToCache.
  rewrite list_elem_of_In, filter_In, <- list_elem_of_In.
  rewrite andb_true_iff, orb_true_iff, negb_true_iff, includes_keys_false.
  tauto.
Qed.

Lemma parseMapData_fileNameWithExt (m : SpringMap.t) (d : MapData.t) :
  parseMapData m = Ok d →
  MapData.fileNameWithExt d = SpringMap.fileNameWithExt m.
Proof.
  unfold parseMapData. intros H.
  destruct (modern_startPositions m); [|done].
  destruct (SpringMap.smf m); [|done].
  by simplify_eq.
Qed.

(** ** The loop of a batch *)

Lemma loop_cons (w : World) (total : nat) (f : string) (l : list string)
  (n : nat) (s : State) :
  cacheMaps_loop w total (f :: l) n s
  = cacheMaps_loop w total l (S n)
      (fst (cacheMap w (mapFilePath w f)
              (set_ipcMain (fun evs => evs ++ [progress total n f]) s))).
Proof.
  cbn [cacheMaps_loop]. unfold mbind, M_bind, emit, modify, progress.
  pose proof (cacheMap_returns w (mapFilePath w f)
    (set_ipcMain (fun evs => evs ++ [progress total n f]) s)) as R.
  unfold progress in R.
  destruct (cacheMap w (mapFilePath w f) _) as [s' r]. cbn in *. by subst.
Qed.

(** No item makes the loop throw. *)
Lemma loop_returns (w : World) (total : nat) (l : list string) (n : nat)
  (s : State) :
  snd (cacheMaps_loop w total l n s) = Ok tt.
Proof.
  revert n s. induction l as [|f l IH]; intros n s; [done|].
  rewrite loop_cons. apply IH.
Qed.

(** Every item of the work set reaches the parser, in order. *)
Lemma loop_parser_calls (w : World) (total : nat) (l : list string) (n : nat)
  (s : State) :
  parser_calls (fst (cacheMaps_loop w total l n s))
  = parser_calls s ++ List.map (mapFilePath w) l.
Proof.
  revert n s. induction l as [|f l IH]; intros n s.
  - cbn. by rewrite app_nil_r.
  - rewrite loop_cons, IH. cbn [List.map].
    set (s0 := set_ipcMain _ s).
    assert (parser_calls (fst (cacheMap w (mapFilePath w f) s0))
            = parser_calls s ++ [mapFilePath w f]) as ->.
    { destruct (cacheMap_try_cases w (mapFilePath w f) s0) as [H|[e H]].
      - apply cacheMap_ok in H as (m & d & _ & _ & _ & _ & _ & H & _). done.
      - apply cacheMap_throw in H as (_ & _ & _ & H & _). done. }
    by rewrite <- app_assoc.
Qed.

Lemma loop_events (w : World) (total : nat) (l : list string) (n : nat)
  (s : State) :
  ∃ evs,
    ipcMain (fst (cacheMaps_loop w total l n s)) = ipcMain s ++ evs
    ∧ batch_events w total n l evs.
Proof.
  revert n s. induction l as [|f l IH]; intros n s.
  - exists []. cbn. rewrite app_nil_r. split; [done|constructor].
  - rewrite loop_cons.
    set (s0 := set_ipcMain _ s).
    destruct (IH (S n) (fst (cacheMap w (mapFilePath w f) s0))) as (evs & E & B).
    destruct (cacheMap_try_cases w (mapFilePath w f) s0) as [H|[e H]].
    + apply cacheMap_ok in H as (m & d & Hm & Hd & _ & _ & H & _).
      exists ([progress total n f; map_cached d] ++ evs). split.
      * rewrite E, H. cbn. by rewrite <- !app_assoc.
      * constructor; [by econstructor|done].
    + apply cacheMap_throw in H as (_ & _ & H & _).
      exists ([progress total n f] ++ evs). split.
      * rewrite E, H. cbn. by rewrite <- !app_assoc.
      * constructor; [constructor|done].
Qed.

(** The index never loses a key. *)
Lemma loop_index_mono (w : World) (total : nat) (l : list string) (n : nat)
  (s : State) (k : string) :
  is_Some (cachedMaps s !! k) →
  is_Some (cachedMaps (fst (cacheMaps_loop w total l n s)) !! k).
Proof.
  revert n s. induction l as [|f l IH]; intros n s Hk; [done|].
  rewrite loop_cons. apply IH.
  set (s0 := set_ipcMain _ s).
  destruct (cacheMap_try_cases w (mapFilePath w f) s0) as [H|[e H]].
  - apply cacheMap_ok in H as (m & d & _ & _ & H & _).
    rewrite H. by apply lookup_assign_is_Some.
  - apply cacheMap_throw in H as (H & _). by rewrite H.
Qed.

Lemma names_on_cons (w : World) (f : string) (l : list string) :
  names_on w (f :: l) →
  (∀ m, parser_parseMap w (mapFilePath w f) = Some m →
        SpringMap.fileNameWithExt m = f)
  ∧ names_on w l.
Proof.
  intros H. split.
  - intros m. apply H. by left.
  - intros g m Hg. apply H. by right.
Qed.

Lemma loop_outcomes_fst (w : World) (total : nat) (l : list string) (n : nat)
  (s : State) :
  (loop_outcomes w total l n s).*1 = l.
Proof.
  revert n s. induction l as [|f l IH]; intros n s; [done|].
  cbn. by rewrite IH.
Qed.

Lemma loop_outcomes_item (w : World) (total : nat) (l : list string) (n : nat)
  (s : State) (f : string) :
  f ∈ l ↔ ∃ r, (f, r) ∈ loop_outcomes w total l n s.
Proof.
  rewrite <- (loop_outcomes_fst w total l n s) at 1.
  rewrite list_elem_of_fmap. split.
  - intros ([g r] & -> & Hin). eauto.
  - intros [r Hin]. by exists (f, r).
Qed.

(** Under the naming contract of the parser, a key is touched only by the
    archive of that name, and only when its processing runs to the end. *)
Lemma loop_frame (w : World) (total : nat) (l : list string) (n : nat)
  (s : State) (k : string) :
  names_on w l →
  (k, Ok tt) ∉ loop_outcomes w total l n s →
  cachedMaps (fst (cacheMaps_loop w total l n s)) !! k = cachedMaps s !! k
  ∧ maps_table (fst (cacheMaps_loop w total l n s)) !! k = maps_table s !! k.
Proof.
  revert n s. induction l as [|f l IH]; intros n s Hnames Hk; [done|].
  apply names_on_cons in Hnames as [Hf Hnames].
  cbn [loop_outcomes] in Hk. apply not_elem_of_cons in Hk as [Hhead Hk].
  rewrite loop_cons.
  destruct (IH _ _ Hnames Hk) as [-> ->].
  set (s0 := set_ipcMain _ s) in *.
  destruct (cacheMap_try_cases w (mapFilePath w f) s0) as [H|[e H]].
  - assert (f ≠ k) as Hne.
    { intros ->. apply Hhead. by rewrite H. }
    apply cacheMap_ok in H as (m & d & Hm & Hd & Hc & Ht & _).
    apply Hf in Hm. apply parseMapData_fileNameWithExt in Hd.
    rewrite Hc, Ht, Hd, Hm.
    by rewrite lookup_assign_ne, lookup_insert_ne.
  - apply cacheMap_throw in H as (Hc & Ht & _). by rewrite Hc, Ht.
Qed.

(** A record that is in the index stays there through a batch: the only
    archive that writes its key yields the same record again. *)
Lemma loop_keeps (w : World) (total : nat) (l : list string) (n : nat)
  (s : State) (f : string) (d : MapData.t) :
  names_on w l →
  record_of w f d →
  cachedMaps s !! f = Some d
  ∧ maps_table s !! f = Some (JSON_stringify w d) →
  cachedMaps (fst (cacheMaps_loop w total l n s)) !! f = Some d
  ∧ maps_table (fst (cacheMaps_loop w total l n s)) !! f
    = Some (JSON_stringify w d).
Proof.
  intros Hnames (m & Hm & Hd). revert n s Hnames.
  induction l as [|g l IH]; intros n s Hnames Hs; [done|].
  apply names_on_cons in Hnames as [Hg Hnames].
  rewrite loop_cons. apply IH; [done|].
  set (s0 := set_ipcMain _ s).
  destruct (cacheMap_try_cases w (mapFilePath w g) s0) as [H|[e H]].
  - apply cacheMap_ok in H as (m' & d' & Hm' & Hd' & Hc & Ht & _).
    pose proof (Hg _ Hm') as Hkey.
    rewrite <- (parseMapData_fileNameWithExt _ _ Hd') in Hkey.
    rewrite Hc, Ht, Hkey.
    destruct (decide (g = f)) as [->|Hne].
    + assert (d' = d) as -> by congruence.
      unfold assign. destruct (String.eqb f "__proto__").
      * rewrite lookup_insert_eq. by destruct Hs.
      * by rewrite !lookup_insert_eq.
    + by rewrite lookup_assign_ne, lookup_insert_ne.
  - apply cacheMap_throw in H as (Hc & Ht & _). by rewrite Hc, Ht.
Qed.


(** An archive of the work set whose processing runs to the end has its
    record in the index and in the table when the batch is over. *)
Lemma loop_caches (w : World) (total : nat) (l : list string) (n : nat)
  (s : State) (f : string) (d : MapData.t) :
  names_on w l →
  record_of w f d →
  processes w f →
  f ≠ "__proto__" →
  f ∈ l →
  cachedMaps (fst (cacheMaps_loop w total l n s)) !! f = Some d
  ∧ maps_table (fst (cacheMaps_loop w total l n s)) !! f
    = Some (JSON_stringify w d).
Proof.
  intros Hnames Hrec Hok Hproto. revert n s Hnames.
  induction l as [|g l IH]; intros n s Hnames Hin;
    [by apply elem_of_nil in Hin|].
  pose proof Hnames as Hall.
  apply names_on_cons in Hnames as [Hg Hnames].
  rewrite loop_cons.
  apply elem_of_cons in Hin as [<-|Hin]; [|by apply IH].
  apply loop_keeps; [done..|].
  set (s0 := set_ipcMain _ s).
  destruct Hrec as (m & Hm & Hd).
  pose proof (Hok s0) as H.
  apply cacheMap_ok in H as (m' & d' & Hm' & Hd' & Hc & Ht & _).
  assert (d' = d) as -> by congruence.
  pose proof (Hg _ Hm) as Hkey.
  rewrite <- (parseMapData_fileNameWithExt _ _ Hd) in Hkey.
  rewrite Hc, Ht, Hkey. by rewrite lookup_assign_eq, lookup_insert_eq.
Qed.

(** ** A batch *)

Lemma cacheMaps_listed (w : World) (recacheAll : bool) (s : State)
  (names : list string) :
  fs_readdir w (getMapsPath w) = Some names →
  cacheMaps w recacheAll s
  = cacheMaps_loop w (length (workSet recacheAll s names))
      (workSet recacheAll s names) 0 s.
Proof.
  intros H. unfold cacheMaps, readdir, gets, mbind, M_bind, mret, M_ret.
  by rewrite H.
Qed.

Lemma cacheMaps_unlisted (w : World) (recacheAll : bool) (s : State) :
  fs_readdir w (getMapsPath w) = None →
  cacheMaps w recacheAll s = (s, Throw (ReaddirError (getMapsPath w))).
Proof.
  intros H. unfold cacheMaps, readdir, throw, mbind, M_bind.
  by rewrite H.
Qed.

(** ** The record of an archive *)


(** The record is built as soon as the team list has no hole and the
    header of the map file is there. *)
Lemma parseMapData_returns (m : SpringMap.t) (positions : option (list (option StartPos.t)))
  (smf : SMF.t) :
  modern_startPositions m = Ok positions →
  SpringMap.smf m = Some smf →
  ∃ d, parseMapData m = Ok d.
Proof.
  intros Hp Hs. unfold parseMapData. rewrite Hp, Hs. eauto.
Qed.




(** C8. For every archive that yields a record, the width and the height
    of the record are exactly twice the width and height units of the map
    file header; raw units 4 and 3 give width 8 and height 6; and the two
    values depend on that header alone, whatever the modern and the legacy
    metadata say. *)
Theorem parseMapData_dimensions (m : SpringMap.t) (d : MapData.t) :
  parseMapData m = Ok d →
  ∃ smf,
    SpringMap.smf m = Some smf
    ∧ MapData.width d = 2 * SMF.mapWidthUnits smf
    ∧ MapData.height d = 2 * SMF.mapHeightUnits smf
    ∧ (SMF.mapWidthUnits smf = 4 → SMF.mapHeightUnits smf = 3 →
       MapData.width d = 8 ∧ MapData.height d = 6)
    ∧ (∀ m' d',
          SpringMap.smf m' = SpringMap.smf m →
          parseMapData m' = Ok d' →
          MapData.width d' = MapData.width d
          ∧ MapData.height d' = MapData.height d).
Proof.
  unfold parseMapData. intros H.
  destruct (modern_startPositions m); [|done].
  destruct (SpringMap.smf m) as [smf|] eqn:Hsmf; [|done].
  injection H as <-. exists smf. cbn.
  split; [done|]. split; [lia|]. split; [lia|]. split.
  - intros -> ->. done.
  - intros m' d' Hsmf' H'.
    destruct (modern_startPositions m'); [|done].
    rewrite Hsmf' in H'. injection H' as <-. done.
Qed.

Lemma parseMapData_dimensions_witness :
  ∃ d, parseMapData (Fixture.plain "a" ".sd7") = Ok d
       ∧ MapData.width d = 8 ∧ MapData.height d = 6.
Proof.
  eexists. split; [reflexivity|].
  destruct (parseMapData_dimensions (Fixture.plain "a" ".sd7") _ eq_refl)
    as (smf & Hsmf & _ & _ & H & _).
  injection Hsmf as <-. apply H; reflexivity.
Defined.

(** C9, as the claim states it, fails: a modern description that is
    present but empty is not used; the legacy description is. *)
Lemma description_empty_modern :
  SpringMap.mapInfo Fixture.emptyDescription ≫= MapInfo.description = Some EmptyString
  ∧ ∃ d, parseMapData Fixture.emptyDescription = Ok d
         ∧ MapData.description d = Some "Legacy text"
         ∧ MapData.description d ≠ Some EmptyString.
Proof.
  split; [reflexivity|]. eexists. split; [reflexivity|]. cbn. done.
Qed.

(** C9, amended. The description of the record is the modern description
    when mapInfo has one that is not the empty string; when mapInfo has
    none, or an empty one, it is the legacy description; and it is absent
    when, in that case, smd has none either. *)
Theorem parseMapData_description (m : SpringMap.t) (d : MapData.t) :
  parseMapData m = Ok d →
  (∀ v, SpringMap.mapInfo m ≫= MapInfo.description = Some v → v ≠ EmptyString →
        MapData.description d = Some v)
  ∧ (SpringMap.mapInfo m ≫= MapInfo.description = None
     ∨ SpringMap.mapInfo m ≫= MapInfo.description = Some EmptyString →
     MapData.description d = SpringMap.smd m ≫= SMD.description)
  ∧ (SpringMap.mapInfo m ≫= MapInfo.description = None
     ∨ SpringMap.mapInfo m ≫= MapInfo.description = Some EmptyString →
     SpringMap.smd m ≫= SMD.description = None →
     MapData.description d = None).
Proof.
  unfold parseMapData. intros H.
  destruct (modern_startPositions m); [|done].
  destruct (SpringMap.smf m); [|done].
  injection H as <-. cbn.
  assert (SpringMap.mapInfo m ≫= MapInfo.description = None
          ∨ SpringMap.mapInfo m ≫= MapInfo.description = Some EmptyString →
          or_else (SpringMap.mapInfo m ≫= MapInfo.description)
                  (SpringMap.smd m ≫= SMD.description)
          = SpringMap.smd m ≫= SMD.description) as Hfall.
  { by intros [-> | ->]. }
  split; [|split].
  - intros v -> Hv. cbn. by destruct v.
  - done.
  - intros Hm Hl. by rewrite Hfall, Hl.
Qed.

Lemma parseMapData_description_witness :
  ∃ d, parseMapData Fixture.modernDescription = Ok d
       ∧ MapData.description d = Some "Modern text".
Proof.
  eexists. split; [reflexivity|].
  eapply (parseMapData_description Fixture.modernDescription);
    [reflexivity|reflexivity|discriminate].
Defined.

Lemma names_on_workSet (w : World) (recacheAll : bool) (s : State)
  (names : list string) :
  parser_names w →
  fs_readdir w (getMapsPath w) = Some names →
  names_on w (workSet recacheAll s names).
Proof.
  intros Hnames Hdir f m Hf. apply (Hnames names Hdir).
  by apply elem_of_workSet in Hf as (Hf & _).
Qed.

Lemma outcomes_listed (w : World) (recacheAll : bool) (s : State)
  (names : list string) :
  fs_readdir w (getMapsPath w) = Some names →
  outcomes w recacheAll s
  = loop_outcomes w (length (workSet recacheAll s names))
      (workSet recacheAll s names) 0 s.
Proof. intros H. unfold outcomes. by rewrite H. Qed.

Lemma outcomes_work (w : World) (recacheAll : bool) (s : State)
  (names : list string) (f : string) :
  fs_readdir w (getMapsPath w) = Some names →
  f ∈ workSet recacheAll s names ↔ ∃ r, (f, r) ∈ outcomes w recacheAll s.
Proof.
  intros Hdir. rewrite (outcomes_listed _ _ _ _ Hdir).
  apply loop_outcomes_item.
Qed.

(** The key of an archive no attempt of which ran to the end in the batch
    holds after the batch what it held before. *)
Lemma cacheMaps_frame (w : World) (recacheAll : bool) (s : State) (k : string) :
  parser_names w →
  (k, Ok tt) ∉ outcomes w recacheAll s →
  cachedMaps (fst (cacheMaps w recacheAll s)) !! k = cachedMaps s !! k
  ∧ maps_table (fst (cacheMaps w recacheAll s)) !! k = maps_table s !! k.
Proof.
  intros Hnames Hk.
  destruct (fs_readdir w (getMapsPath w)) as [names|] eqn:Hdir.
  - rewrite (cacheMaps_listed _ _ _ _ Hdir).
    rewrite (outcomes_listed _ _ _ _ Hdir) in Hk.
    apply loop_frame; [by apply names_on_workSet|done].
  - by rewrite (cacheMaps_unlisted _ _ _ Hdir).
Qed.

Lemma cacheMaps_index_mono (w : World) (recacheAll : bool) (s : State)
  (k : string) :
  is_Some (cachedMaps s !! k) →
  is_Some (cachedMaps (fst (cacheMaps w recacheAll s)) !! k).
Proof.
  intros Hk.
  destruct (fs_readdir w (getMapsPath w)) as [names|] eqn:Hdir.
  - rewrite (cacheMaps_listed _ _ _ _ Hdir). by apply loop_index_mono.
  - by rewrite (cacheMaps_unlisted _ _ _ Hdir).
Qed.

Lemma processes_record_of (w : World) (f : string) :
  processes w f → ∃ d, record_of w f d.
Proof.
  intros H. pose proof (H Fixture.fresh) as H0.
  apply cacheMap_ok in H0 as (m & d & Hm & Hd & _). by exists d, m.
Qed.

(** The steps that make an archive run to the end in every state. *)
Lemma processes_of_steps (w : World) (f : string) (m : SpringMap.t)
  (d : MapData.t) (texture metal height type : Jimp) :
  parser_parseMap w (mapFilePath w f) = Some m →
  parseMapData m = Ok d →
  SpringMap.textureMap m = Some texture →
  SpringMap.metalMap m = Some metal →
  SpringMap.heightMap m = Some height →
  SpringMap.typeMap m = Some type →
  jimp_writeAsync w texture (destPath w d "texture") = true →
  jimp_writeAsync w metal (destPath w d "metal") = true →
  jimp_writeAsync w height (destPath w d "height") = true →
  jimp_writeAsync w type (destPath w d "type") = true →
  db_prepare w addMap_sql = true →
  statement_get w (MapData.fileNameWithExt d) (JSON_stringify w d) = true →
  processes w f.
Proof.
  intros Hm Hd H1 H2 H3 H4 W1 W2 W3 W4 Hp Hg s.
  unfold_M. rewrite Hm, Hd, H1, W1, H2, W2, H3, W3, H4, W4. cbn.
  destruct (preparedStatements s !! "addMap"); cbn; rewrite ?Hp, Hg; done.
Qed.



Lemma parserOf_In (archives : list (string * SpringMap.t)) (p : string)
  (m : SpringMap.t) :
  Fixture.parserOf archives p = Some m → In (p, m) archives.
Proof.
  induction archives as [|[p' m'] archives IH]; cbn [Fixture.parserOf]; [done|].
  destruct (String.eqb_spec p' p) as [->|_].
  - intros [= ->]. by left.
  - intros H. right. by apply IH.
Qed.

Lemma mapFilePath_fixture (names : list string)
  (parser : string → option SpringMap.t) (f g : string) :
  mapFilePath (Fixture.world names parser) f
  = mapFilePath (Fixture.world names parser) g →
  f = g.
Proof.
  unfold mapFilePath, getMapsPath, Fixture.world, Fixture.join.
  cbn [path_join dataDir]. intros E.
  apply String.app_inj in E. by apply String.app_inj in E.
Qed.

(** The fixture parser satisfies the naming contract. *)
Lemma twoValid_names (names : list string) :
  parser_names (Fixture.world names Fixture.twoValid).
Proof.
  intros listed _ f m _ H. apply parserOf_In in H.
  destruct H as [H|[H|[]]]; apply pair_equal_spec in H as [Hp <-].
  - by apply (mapFilePath_fixture _ _ "a.sd7" f) in Hp as <-.
  - by apply (mapFilePath_fixture _ _ "c.sdz" f) in Hp as <-.
Qed.

Lemma twoValid_a (names : list string) :
  processes (Fixture.world names Fixture.twoValid) "a.sd7".
Proof. eapply processes_of_steps; reflexivity. Qed.


(** ** Failure isolation *)



(** ** Incremental and forced batches *)

Lemma filter_none (P : string → bool) (l : list string) :
  (∀ g, g ∈ l → P g = false) → List.filter P l = [].
Proof.
  induction l as [|g l IH]; intros H; [done|].
  cbn [List.filter]. rewrite H; [|by left].
  apply IH. intros h Hh. apply H. by right.
Qed.

Lemma filter_single (P : string → bool) (l : list string) (f : string) :
  NoDup l → f ∈ l → P f = true →
  (∀ g, g ∈ l → g ≠ f → P g = false) →
  List.filter P l = [f].
Proof.
  induction l as [|g l IH]; intros Hnd Hin Hf Hothers.
  - by apply elem_of_nil in Hin.
  - apply NoDup_cons in Hnd as [Hg Hnd]. cbn [List.filter].
    apply elem_of_cons in Hin as [<-|Hin].
    + rewrite Hf. f_equal. apply filter_none.
      intros h Hh. apply Hothers; [by right|]. by intros ->.
    + rewrite Hothers; [|by left|by intros ->].
      apply IH; [done..|]. intros h Hh. apply Hothers. by right.
Qed.

Lemma workSet_forced (s : State) (names : list string) :
  workSet true s names = List.filter recognized names.
Proof. done. Qed.


(** C2. When every recognized file of the listing but one, [f], is a key
    of the index, and [f] is new, the incremental batch has exactly [f] in
    its work set, hands exactly that one archive to the parser, and leaves
    the record under every other key of the index as it was. *)
Theorem incremental_one_new (w : World) (s : State) (names : list string)
  (f : string) :
  fs_readdir w (getMapsPath w) = Some names →
  NoDup names →
  f ∈ names →
  recognized f = true →
  cachedMaps s !! f = None →
  (∀ g, g ∈ names → g ≠ f → recognized g = true →
        is_Some (cachedMaps s !! g)) →
  (∀ m, parser_parseMap w (mapFilePath w f) = Some m →
        SpringMap.fileNameWithExt m = f) →
  workSet false s names = [f]
  ∧ snd (cacheMaps w false s) = Ok tt
  ∧ parser_calls (fst (cacheMaps w false s))
    = parser_calls s ++ [mapFilePath w f]
  ∧ (∀ k, k ≠ f →
          cachedMaps (fst (cacheMaps w false s)) !! k = cachedMaps s !! k).
Proof.
  intros Hdir Hnd Hin Hrec Hnew Hold Hname.
  assert (workSet false s names = [f]) as Hwork.
  { apply filter_single; [done..| |].
    - cbn. by rewrite (proj2 (includes_keys_false _ _) Hnew), Hrec.
    - intros g Hg Hne. cbn.
      destruct (recognized g) eqn:Hr; [|by rewrite andb_false_r].
      apply (Hold _ Hg Hne), includes_keys in Hr. by rewrite Hr. }
  rewrite (cacheMaps_listed _ _ _ _ Hdir), Hwork.
  split; [done|]. split; [apply loop_returns|].
  split; [apply loop_parser_calls|].
  intros k Hk. rewrite loop_cons. cbn [cacheMaps_loop mret M_ret fst].
  set (s0 := set_ipcMain _ s).
  destruct (cacheMap_try_cases w (mapFilePath w f) s0) as [H|[e H]].
  - apply cacheMap_ok in H as (m & d & Hm & Hd & Hc & _).
    apply Hname in Hm. apply parseMapData_fileNameWithExt in Hd.
    rewrite Hc, Hd, Hm. by rewrite lookup_assign_ne.
  - apply cacheMap_throw in H as (Hc & _). by rewrite Hc.
Qed.

Lemma incremental_one_new_witness :
  workSet false
    (fst (cacheMaps Fixture.threeArchives false Fixture.fresh))
    ["a.sd7"; "c.sdz"; "b.sd7"] = ["b.sd7"]
  ∧ ∀ k, k ≠ "b.sd7" →
      cachedMaps
        (fst (cacheMaps (Fixture.world ["a.sd7"; "c.sdz"; "b.sd7"]
                           (Fixture.parserOf
                              [("/data/maps/b.sd7", Fixture.plain "b" ".sd7")]))
                false
                (fst (cacheMaps Fixture.threeArchives false Fixture.fresh))))
        !! k
      = cachedMaps (fst (cacheMaps Fixture.threeArchives false Fixture.fresh))
          !! k.
Proof.
  pose proof (incremental_one_new
    (Fixture.world ["a.sd7"; "c.sdz"; "b.sd7"]
       (Fixture.parserOf [("/data/maps/b.sd7", Fixture.plain "b" ".sd7")]))
    (fst (cacheMaps Fixture.threeArchives false Fixture.fresh))
    ["a.sd7"; "c.sdz"; "b.sd7"] "b.sd7") as H.
  destruct H as (Hwork & _ & _ & Hframe).
  - reflexivity.
  - apply (bool_decide_unpack _). vm_compute. exact I.
  - apply (bool_decide_unpack _). vm_compute. exact I.
  - reflexivity.
  - vm_compute. reflexivity.
  - intros g Hg Hne _.
    apply elem_of_cons in Hg as [->|Hg]; [vm_compute; eauto|].
    apply elem_of_cons in Hg as [->|Hg]; [vm_compute; eauto|].
    apply elem_of_cons in Hg as [->|Hg]; [done|].
    by apply elem_of_nil in Hg.
  - intros m Hm. apply parserOf_In in Hm.
    destruct Hm as [Hm|[]]. apply pair_equal_spec in Hm as [_ <-]. reflexivity.
  - split; [exact Hwork|exact Hframe].
Defined.

(** C4. A forced batch takes as its work set every file of the listing
    that has one of the two extensions, whatever the index holds, and
    hands each of them to the parser; an item that runs to the end writes
    its record under the key fileNameWithExt, over whatever was there,
    in the index and in the table; so, under the naming contract of the
    parser, when the batch is over each processed archive has its new
    record under its own file name, keys of other names hold what they
    held, and no key is lost. *)
Theorem forced_recache (w : World) (s : State) (names : list string) :
  fs_readdir w (getMapsPath w) = Some names →
  workSet true s names = List.filter recognized names
  ∧ parser_calls (fst (cacheMaps w true s))
    = parser_calls s ++ List.map (mapFilePath w) (List.filter recognized names)
  ∧ (∀ p st, snd (cacheMap_try w p st) = Ok tt →
       ∃ m d,
         parser_parseMap w p = Some m ∧ parseMapData m = Ok d
         ∧ cachedMaps (fst (cacheMap w p st))
           = assign (MapData.fileNameWithExt d) d (cachedMaps st)
         ∧ maps_table (fst (cacheMap w p st))
           = <[MapData.fileNameWithExt d := JSON_stringify w d]> (maps_table st))
  ∧ (∀ f d,
       parser_names w →
       f ∈ names → recognized f = true →
       record_of w f d → processes w f →
       cachedMaps (fst (cacheMaps w true s)) !! f = Some d
       ∧ maps_table (fst (cacheMaps w true s)) !! f = Some (JSON_stringify w d))
  ∧ (∀ k,
       parser_names w →
       k ∉ List.filter recognized names →
       cachedMaps (fst (cacheMaps w true s)) !! k = cachedMaps s !! k)
  ∧ (∀ k,
       is_Some (cachedMaps s !! k) →
       is_Some (cachedMaps (fst (cacheMaps w true s)) !! k)).
Proof.
  intros Hdir. rewrite (cacheMaps_listed _ _ _ _ Hdir), workSet_forced.
  split; [done|]. split; [apply loop_parser_calls|].
  split; [|split; [|split]].
  - intros p st H.
    apply cacheMap_ok in H as (m & d & Hm & Hd & Hc & Ht & _). eauto 7.
  - intros f d Hnames Hin Hrec Hd Hok.
    pose proof (names_on_workSet w true s names Hnames Hdir) as Hon.
    rewrite workSet_forced in Hon.
    apply loop_caches; [done..|by apply recognized_not_proto|].
    apply list_elem_of_In, filter_In. by rewrite <- list_elem_of_In.
  - intros k Hnames Hk.
    pose proof (names_on_workSet w true s names Hnames Hdir) as Hon.
    rewrite workSet_forced in Hon.
    apply loop_frame; [done|].
    intros Hin. apply Hk. eapply loop_outcomes_item. eauto.
  - intros k. apply loop_index_mono.
Qed.

Lemma forced_recache_witness :
  workSet true (fst (cacheMaps Fixture.threeArchives false Fixture.fresh))
    ["a.sd7"; "b.sd7"; "c.sdz"; "readme.txt"]
  = ["a.sd7"; "b.sd7"; "c.sdz"]
  ∧ ∃ d,
      cachedMaps
        (fst (cacheMaps Fixture.threeArchives true
                (set_cachedMaps (fun _ => {["a.sd7" := Fixture.oldRecord]})
                   Fixture.fresh)))
        !! "a.sd7" = Some d
      ∧ MapData.scriptName d = "a 1.0".
Proof.
  split.
  - rewrite (proj1 (forced_recache Fixture.threeArchives _ _ eq_refl)).
    reflexivity.
  - eexists. split.
    + eapply (forced_recache Fixture.threeArchives _ _ eq_refl).
      * exact (twoValid_names _).
      * set_solver.
      * reflexivity.
      * eexists. split; reflexivity.
      * exact (twoValid_a _).
    + reflexivity.
Defined.

(** ** Running the incremental batch again *)


(** An archive that is not a key of the index is taken again by an
    incremental batch over any listing that has it, and handed to the
    parser. *)
Lemma incremental_includes (w : World) (s : State) (names : list string)
  (f : string) :
  cachedMaps s !! f = None →
  recognized f = true →
  fs_readdir w (getMapsPath w) = Some names →
  f ∈ names →
  f ∈ workSet false s names
  ∧ ∃ before after,
      parser_calls (fst (cacheMaps w false s))
      = before ++ mapFilePath w f :: after
      ∧ (length (parser_calls s) ≤ length before)%nat.
Proof.
  intros Hnone Hrec Hdir Hin.
  assert (f ∈ workSet false s names) as Hwork.
  { apply elem_of_workSet. auto. }
  split; [done|].
  rewrite (cacheMaps_listed _ _ _ _ Hdir), loop_parser_calls.
  apply list_elem_of_split in Hwork as (l1 & l2 & ->).
  exists (parser_calls s ++ List.map (mapFilePath w) l1),
         (List.map (mapFilePath w) l2).
  split.
  - by rewrite map_app, <- app_assoc.
  - rewrite length_app. lia.
Qed.



Lemma threeArchives_outcomes :
  outcomes Fixture.threeArchives false Fixture.fresh
  = [("a.sd7", Ok tt);
     ("b.sd7", Throw (ParseError "/data/maps/b.sd7"));
     ("c.sdz", Ok tt)].
Proof. vm_compute. reflexivity. Qed.

Lemma threeArchives_failed :
  failed_in Fixture.threeArchives false Fixture.fresh "b.sd7".
Proof.
  unfold failed_in. rewrite threeArchives_outcomes. split.
  - eexists. apply elem_of_cons. right. apply elem_of_cons. by left.
  - intros H.
    apply elem_of_cons in H as [H|H]; [discriminate H|].
    apply elem_of_cons in H as [H|H]; [discriminate H|].
    apply elem_of_cons in H as [H|H]; [discriminate H|].
    by apply elem_of_nil in H.
Qed.


(** ** Archives that failed *)

(** C10, as the claim states it, fails: an archive that is already in
    the index and whose processing fails in a forced batch keeps its old
    record, and the incremental batch that follows leaves it out of its
    work set and does not call the parser. *)
Lemma forced_failure_not_retried :
  workSet true Fixture.indexed ["a.sd7"; "b.sd7"; "c.sdz"; "readme.txt"]
  = ["a.sd7"; "b.sd7"; "c.sdz"]
  ∧ console (fst (cacheMaps Fixture.threeArchives true Fixture.indexed))
    = [(caching_error "/data/maps/b.sd7", ParseError "/data/maps/b.sd7")]
  ∧ cachedMaps (fst (cacheMaps Fixture.threeArchives true Fixture.indexed))
      !! "b.sd7" = Some Fixture.oldRecord
  ∧ workSet false (fst (cacheMaps Fixture.threeArchives true Fixture.indexed))
      ["a.sd7"; "b.sd7"; "c.sdz"; "readme.txt"] = []
  ∧ parser_calls
      (fst (cacheMaps Fixture.threeArchives false
              (fst (cacheMaps Fixture.threeArchives true Fixture.indexed))))
    = parser_calls (fst (cacheMaps Fixture.threeArchives true Fixture.indexed)).
Proof.
  split; [|split; [|split; [|split]]]; vm_compute; reflexivity.
Qed.

Lemma incremental_batches_frame (ws : list World) (s : State) (f : string) :
  still_failing f ws s →
  cachedMaps (incremental_batches ws s) !! f = cachedMaps s !! f.
Proof.
  revert s. induction ws as [|w ws IH]; intros s H; [done|].
  destruct H as (Hnames & Hf & Hrest).
  cbn [incremental_batches]. rewrite (IH _ Hrest).
  by apply cacheMaps_frame.
Qed.

Lemma incremental_batches_mono (ws : list World) (s : State) (f : string) :
  is_Some (cachedMaps s !! f) →
  is_Some (cachedMaps (incremental_batches ws s) !! f).
Proof.
  revert s. induction ws as [|w ws IH]; intros s H; [done|].
  cbn [incremental_batches]. apply IH. by apply cacheMaps_index_mono.
Qed.

(** C10, amended. Let the parser report each listed archive under its file
    name, and let the processing of an archive fail in a batch (the
    archive was attempted and its try block threw).  If its file name was
    not a key of the index when the batch started (always the case in an
    incremental batch), it is not in the index when the batch is over,
    and after any number of further incremental batches in which, under
    the same naming condition, it is not cached, the next incremental
    batch over a listing that has the file puts it in its work set and
    hands it to the parser again.  If its file name was a key of the
    index when the batch started (a forced batch), the index keeps the old
    record and no later incremental batch, over any listing, has the file
    in its work set. *)
Theorem failed_item_retried (w : World) (recacheAll : bool) (s : State)
  (f : string) :
  parser_names w →
  failed_in w recacheAll s f →
  (cachedMaps s !! f = None →
   cachedMaps (fst (cacheMaps w recacheAll s)) !! f = None
   ∧ ∀ ws w' names',
       still_failing f ws (fst (cacheMaps w recacheAll s)) →
       fs_readdir w' (getMapsPath w') = Some names' →
       f ∈ names' →
       f ∈ workSet false
             (incremental_batches ws (fst (cacheMaps w recacheAll s))) names'
       ∧ ∃ before after,
           parser_calls
             (fst (cacheMaps w' false
                     (incremental_batches ws (fst (cacheMaps w recacheAll s)))))
           = before ++ mapFilePath w' f :: after
           ∧ (length (parser_calls
                        (incremental_batches ws
                           (fst (cacheMaps w recacheAll s))))
              ≤ length before)%nat)
  ∧ (∀ d, cachedMaps s !! f = Some d →
       cachedMaps (fst (cacheMaps w recacheAll s)) !! f = Some d
       ∧ ∀ ws names',
           f ∉ workSet false
                 (incremental_batches ws (fst (cacheMaps w recacheAll s)))
                 names').
Proof.
  intros Hnames [[e He] Hno].
  destruct (cacheMaps_frame w recacheAll s f Hnames Hno) as [Hframe _].
  assert (recognized f = true) as Hrec.
  { unfold outcomes in He.
    destruct (fs_readdir w (getMapsPath w)) as [names|];
      [|by apply elem_of_nil in He].
    assert (f ∈ workSet recacheAll s names) as Hw.
    { eapply loop_outcomes_item. eauto. }
    by apply elem_of_workSet in Hw as (_ & _ & Hr). }
  split.
  - intros Hnew. split; [by rewrite Hframe|].
    intros ws w' names' Hws Hdir' Hin.
    apply incremental_includes; [|done..].
    by rewrite (incremental_batches_frame _ _ _ Hws), Hframe.
  - intros d Hd. split; [by rewrite Hframe|].
    intros ws names' Hin.
    apply elem_of_workSet in Hin as (_ & [Hf|Hnone] & _); [done|].
    assert (is_Some (cachedMaps
                       (incremental_batches ws (fst (cacheMaps w recacheAll s)))
                     !! f)) as [d' Hd'].
    { apply incremental_batches_mono. rewrite Hframe, Hd. eauto. }
    congruence.
Qed.

Lemma threeArchives_still_failing :
  still_failing "b.sd7" [Fixture.threeArchives]
    (fst (cacheMaps Fixture.threeArchives false Fixture.fresh)).
Proof.
  split; [exact (twoValid_names _)|]. split; [|exact I].
  assert (outcomes Fixture.threeArchives false
            (fst (cacheMaps Fixture.threeArchives false Fixture.fresh))
          = [("b.sd7", Throw (ParseError "/data/maps/b.sd7"))]) as E
    by (vm_compute; reflexivity).
  rewrite E. intros H.
  apply elem_of_cons in H as [H|H]; [discriminate H|].
  by apply elem_of_nil in H.
Qed.

Lemma failed_item_retried_witness :
  "b.sd7" ∈ workSet false
              (fst (cacheMaps Fixture.threeArchives false
                      (fst (cacheMaps Fixture.threeArchives false Fixture.fresh))))
              ["a.sd7"; "b.sd7"; "c.sdz"; "readme.txt"].
Proof.
  destruct (failed_item_retried Fixture.threeArchives false Fixture.fresh
              "b.sd7" (twoValid_names _) threeArchives_failed) as [H _].
  destruct (H eq_refl) as [_ Hretry].
  refine (proj1 (Hretry [Fixture.threeArchives] Fixture.threeArchives
                   ["a.sd7"; "b.sd7"; "c.sdz"; "readme.txt"]
                   threeArchives_still_failing eq_refl _)).
  apply (bool_decide_unpack _). vm_compute. exact I.
Defined.

(** ** Events *)

Lemma started_in_app (evs1 evs2 : list Event) :
  started_in (evs1 ++ evs2) = (started_in evs1 + started_in evs2)%nat.
Proof. unfold started_in. by rewrite List.filter_app, length_app. Qed.

Lemma completed_in_app (evs1 evs2 : list Event) :
  completed_in (evs1 ++ evs2) = (completed_in evs1 + completed_in evs2)%nat.
Proof. unfold completed_in. by rewrite List.filter_app, length_app. Qed.





(** The count carried by an announcement is the number of announcements
    before it, and the announced item sits at that place of the work set. *)
Lemma batch_events_started (w : World) (total n : nat) (l : list string)
  (evs : list Event) :
  batch_events w total n l evs →
  ∀ pre p post, evs = pre ++ map_cache_progress p :: post →
  currentMapsCached p = (n + started_in pre)%nat
  ∧ l !! started_in pre = Some (currentMapCaching p)
  ∧ (completed_in pre ≤ started_in pre)%nat.
Proof.
  induction 1 as [|n f l evs1 evs2 Hitem _ IH]; intros pre p post E.
  - by destruct pre.
  - destruct Hitem as [|m d0 Hm Hd].
    + destruct pre as [|e pre].
      * injection E as <- _. cbn. split; [lia|]. split; [done|lia].
      * injection E as <- E.
        destruct (IH _ _ _ E) as (Hn & Hl & Hc).
        change (progress total n f :: pre) with ([progress total n f] ++ pre).
        rewrite started_in_app, completed_in_app. cbn.
        split; [lia|]. split; [done|lia].
    + destruct pre as [|e1 pre].
      * injection E as <- _. cbn. split; [lia|]. split; [done|lia].
      * injection E as <- E. destruct pre as [|e2 pre]; [done|].
        injection E as <- E.
        destruct (IH _ _ _ E) as (Hn & Hl & Hc).
        change (progress total n f :: map_cached d0 :: pre)
          with ([progress total n f; map_cached d0] ++ pre).
        rewrite started_in_app, completed_in_app. cbn.
        split; [lia|]. split; [done|lia].
Qed.




(** C7, as the claim states it, fails: in the batch of three archives of
    which the second is rejected, the third item is announced with the
    count 2, although one item only has been cached by then. *)
Lemma itemStarted_counts_failed :
  ipcMain (fst (cacheMaps Fixture.threeArchives false Fixture.fresh)) !! 3%nat
  = Some (progress 3 2 "c.sdz")
  ∧ completed_in
      (take 3 (ipcMain (fst (cacheMaps Fixture.threeArchives false Fixture.fresh))))
    = 1%nat
  ∧ console (fst (cacheMaps Fixture.threeArchives false Fixture.fresh))
    = [(caching_error "/data/maps/b.sd7", ParseError "/data/maps/b.sd7")].
Proof.
  split; [|split]; vm_compute; reflexivity.
Qed.

(** C7, amended. The count carried by the itemStarted of an item is the
    number of items of this batch announced before it, that is its
    place in the work set, whether those items were cached or failed; the
    number of items cached so far is at most that count. *)
Theorem itemStarted_count (w : World) (recacheAll : bool) (s : State)
  (names : list string) :
  fs_readdir w (getMapsPath w) = Some names →
  ∃ evs,
    ipcMain (fst (cacheMaps w recacheAll s)) = ipcMain s ++ evs
    ∧ ∀ pre p post, evs = pre ++ map_cache_progress p :: post →
        currentMapsCached p = started_in pre
        ∧ workSet recacheAll s names !! currentMapsCached p
          = Some (currentMapCaching p)
        ∧ (completed_in pre ≤ currentMapsCached p)%nat.
Proof.
  intros Hdir. rewrite (cacheMaps_listed _ _ _ _ Hdir).
  destruct (loop_events w (length (workSet recacheAll s names))
              (workSet recacheAll s names) 0 s) as (evs & E & B).
  exists evs. split; [done|]. intros pre p post Hsplit.
  destruct (batch_events_started _ _ _ _ _ B _ _ _ Hsplit) as (Hn & Hl & Hc).
  cbn in Hn. rewrite Hn. done.
Qed.

Lemma itemStarted_count_witness :
  ∃ evs,
    ipcMain (fst (cacheMaps Fixture.threeArchives false Fixture.fresh))
    = ipcMain Fixture.fresh ++ evs
    ∧ ∀ pre p post, evs = pre ++ map_cache_progress p :: post →
        currentMapsCached p = started_in pre.
Proof.
  destruct (itemStarted_count Fixture.threeArchives false Fixture.fresh
              ["a.sd7"; "b.sd7"; "c.sdz"; "readme.txt"] eq_refl)
    as (evs & E & H).
  exists evs. split; [exact E|]. intros pre p post Hsplit.
  exact (proj1 (H pre p post Hsplit)).
Defined.

(** * Further properties *)

(** ** What one unit of work writes *)

Lemma cacheMap_ok_files (w : World) (p : string) (s : State) :
  snd (cacheMap_try w p s) = Ok tt →
  ∃ m d texture metal height type,
    parser_parseMap w p = Some m
    ∧ parseMapData m = Ok d
    ∧ SpringMap.textureMap m = Some texture
    ∧ SpringMap.metalMap m = Some metal
    ∧ SpringMap.heightMap m = Some height
    ∧ SpringMap.typeMap m = Some type
    ∧ image_files (fst (cacheMap w p s))
      = <[destPath w d "type" := type]>
          (<[destPath w d "height" := height]>
             (<[destPath w d "metal" := metal]>
                (<[destPath w d "texture" := texture]> (image_files s))))
    ∧ is_Some (preparedStatements (fst (cacheMap w p s)) !! "addMap").
Proof.
  unfold_M. intros H. repeat step_M.
  all: eexists _, _, _, _, _, _; cbn.
  all: repeat (split; [done|]).
  - cbn in *. eauto.
  - unfold assign. cbn. by rewrite lookup_insert_eq.
Qed.

(** Nothing that one unit of work does removes a file, a row or a
    prepared statement. *)
Lemma cacheMap_keeps (w : World) (p : string) (s : State) :
  (∀ path, is_Some (image_files s !! path) →
           is_Some (image_files (fst (cacheMap w p s)) !! path))
  ∧ (∀ k, is_Some (maps_table s !! k) →
          is_Some (maps_table (fst (cacheMap w p s)) !! k))
  ∧ (∀ k, is_Some (preparedStatements s !! k) →
          is_Some (preparedStatements (fst (cacheMap w p s)) !! k)).
Proof.
  unfold_M. repeat step_M; cbn.
  all: split; [|split]; intros k Hk; try done.
  all: unfold assign; cbn.
  all: repeat (apply lookup_insert_is_Some'; right); done.
Qed.

(** A general induction over the loop of a batch. *)
Lemma loop_preserves (I : State → Prop) (w : World) (total : nat)
  (l : list string) (n : nat) (s : State) :
  (∀ s e, I s → I (set_ipcMain (fun evs => evs ++ [e]) s)) →
  (∀ f s, f ∈ l → I s → I (fst (cacheMap w (mapFilePath w f) s))) →
  I s →
  I (fst (cacheMaps_loop w total l n s)).
Proof.
  intros Hemit Hitem. revert n s.
  induction l as [|f l IH]; intros n s Hs; [done|].
  rewrite loop_cons. apply IH.
  - intros g s' Hg. apply Hitem. by right.
  - apply Hitem; [by left|]. by apply Hemit.
Qed.

Lemma cacheMaps_preserves (I : State → Prop) (w : World) (recacheAll : bool)
  (s : State) :
  (∀ s e, I s → I (set_ipcMain (fun evs => evs ++ [e]) s)) →
  (∀ f s, recognized f = true → I s →
          I (fst (cacheMap w (mapFilePath w f) s))) →
  I s →
  I (fst (cacheMaps w recacheAll s)).
Proof.
  intros Hemit Hitem Hs.
  destruct (fs_readdir w (getMapsPath w)) as [names|] eqn:Hdir.
  - rewrite (cacheMaps_listed _ _ _ _ Hdir).
    apply loop_preserves; [done| |done].
    intros f s' Hf. apply elem_of_workSet in Hf as (_ & _ & Hr). by apply Hitem.
  - by rewrite (cacheMaps_unlisted _ _ _ Hdir).
Qed.

(** ** Invariants of a batch *)

(** X1. Whatever a batch does (incremental or forced, with items that
    fail or not, with a directory that can be listed or not), if before it
    every record of the index had its serialized form in the table under
    the same key, the same holds after it: the index is never ahead of the
    table. *)
Theorem cacheMaps_index_in_table (w : World) (recacheAll : bool) (s : State) :
  own_keys s →
  index_in_table w s →
  own_keys (fst (cacheMaps w recacheAll s))
  ∧ index_in_table w (fst (cacheMaps w recacheAll s)).
Proof.
  intros Hown Hinv.
  apply (cacheMaps_preserves (fun s => own_keys s ∧ index_in_table w s));
    [done| |done].
  clear. intros f s _ [Hown Hinv].
  destruct (cacheMap_try_cases w (mapFilePath w f) s) as [H|[e H]].
  - apply cacheMap_ok in H as (m & d & _ & _ & Hc & Ht & _).
    unfold own_keys, index_in_table. rewrite Hc, Ht. unfold assign.
    destruct (String.eqb_spec (MapData.fileNameWithExt d) "__proto__")
      as [Hkey|Hkey].
    + split; [done|]. intros k d' Hk.
      destruct (decide (k = "__proto__")) as [->|Hne]; [congruence|].
      rewrite lookup_insert_ne; [by apply Hinv|congruence].
    + split; [by rewrite lookup_insert_ne|]. intros k d'.
      destruct (decide (MapData.fileNameWithExt d = k)) as [<-|Hne].
      * rewrite !lookup_insert_eq. congruence.
      * rewrite !lookup_insert_ne by done. apply Hinv.
  - apply cacheMap_throw in H as (Hc & Ht & _).
    unfold own_keys, index_in_table. by rewrite Hc, Ht.
Qed.

Lemma cacheMaps_index_in_table_witness :
  index_in_table Fixture.threeArchives
    (fst (cacheMaps Fixture.threeArchives false Fixture.fresh)).
Proof.
  apply (cacheMaps_index_in_table Fixture.threeArchives false Fixture.fresh).
  - reflexivity.
  - intros k d H. cbn in H. by rewrite lookup_empty in H.
Defined.

Lemma four_names (name : string) :
  name ∈ ["texture"; "metal"; "height"; "type"] →
  name = "texture" ∨ name = "metal" ∨ name = "height" ∨ name = "type".
Proof.
  intros H. repeat (apply elem_of_cons in H as [H|H]; [auto|]).
  by apply elem_of_nil in H.
Qed.

Lemma four_files_written (w : World) (d : MapData.t)
  (texture metal height type : Jimp) (files : gmap string Jimp) (name : string) :
  name ∈ ["texture"; "metal"; "height"; "type"] →
  is_Some
    (<[destPath w d "type" := type]>
       (<[destPath w d "height" := height]>
          (<[destPath w d "metal" := metal]>
             (<[destPath w d "texture" := texture]> files)))
     !! destPath w d name).
Proof.
  intros H. apply four_names in H as [-> | [-> | [-> | ->]]].
  all: repeat (apply lookup_insert_is_Some'; (by left) || right).
Qed.

(** X2. If before a batch every record of the index has its four image
    files (texture, metal, height, type, at the paths built from the
    record's fileName), the same holds after the batch: a record enters
    the index only after its four images were written, and no image is
    ever removed. *)
Theorem cacheMaps_images_present (w : World) (recacheAll : bool) (s : State) :
  images_present w s →
  images_present w (fst (cacheMaps w recacheAll s)).
Proof.
  apply cacheMaps_preserves; [done|].
  clear. intros f s _ Hinv k d' name Hk Hname.
  destruct (cacheMap_keeps w (mapFilePath w f) s) as (Hfiles & _ & _).
  destruct (cacheMap_try_cases w (mapFilePath w f) s) as [H|[e H]].
  - pose proof H as H'.
    apply cacheMap_ok_files in H
      as (m & d & t1 & t2 & t3 & t4 & Hm & Hd & _ & _ & _ & _ & Hf & _).
    apply cacheMap_ok in H' as (m' & d0 & Hm' & Hd' & Hc & _).
    assert (d0 = d) as -> by congruence.
    rewrite Hc in Hk. unfold assign in Hk.
    destruct (String.eqb (MapData.fileNameWithExt d) "__proto__").
    { apply Hfiles. by eapply Hinv. }
    destruct (decide (MapData.fileNameWithExt d = k)) as [<-|Hne].
    + rewrite lookup_insert_eq in Hk. injection Hk as <-.
      rewrite Hf. by apply four_files_written.
    + rewrite lookup_insert_ne in Hk by done. apply Hfiles. by eapply Hinv.
  - apply cacheMap_throw in H as (Hc & _). rewrite Hc in Hk.
    apply Hfiles. by eapply Hinv.
Qed.

Lemma cacheMaps_images_present_witness :
  images_present Fixture.threeArchives
    (fst (cacheMaps Fixture.threeArchives false Fixture.fresh)).
Proof.
  apply (cacheMaps_images_present Fixture.threeArchives false Fixture.fresh).
  intros k d name H. cbn in H. by rewrite lookup_empty in H.
Defined.

(** X3. There is no rollback: when the parser, the record and the four
    image writes succeed but the metadata write fails (the statement
    cannot be prepared, or its execution fails), the four image files are
    on disk after [cacheMap] although neither the index nor the table has
    the record. *)
Theorem cacheMap_no_rollback (w : World) (p : string) (s : State)
  (m : SpringMap.t) (d : MapData.t) (texture metal height type : Jimp) :
  parser_parseMap w p = Some m →
  parseMapData m = Ok d →
  SpringMap.textureMap m = Some texture →
  SpringMap.metalMap m = Some metal →
  SpringMap.heightMap m = Some height →
  SpringMap.typeMap m = Some type →
  jimp_writeAsync w texture (destPath w d "texture") = true →
  jimp_writeAsync w metal (destPath w d "metal") = true →
  jimp_writeAsync w height (destPath w d "height") = true →
  jimp_writeAsync w type (destPath w d "type") = true →
  (preparedStatements s !! "addMap" = None ∧ db_prepare w addMap_sql = false)
  ∨ statement_get w (MapData.fileNameWithExt d) (JSON_stringify w d) = false →
  image_files (fst (cacheMap w p s))
  = <[destPath w d "type" := type]>
      (<[destPath w d "height" := height]>
         (<[destPath w d "metal" := metal]>
            (<[destPath w d "texture" := texture]> (image_files s))))
  ∧ (∀ name, name ∈ ["texture"; "metal"; "height"; "type"] →
       is_Some (image_files (fst (cacheMap w p s)) !! destPath w d name))
  ∧ cachedMaps (fst (cacheMap w p s)) = cachedMaps s
  ∧ maps_table (fst (cacheMap w p s)) = maps_table s.
Proof.
  intros Hm Hd H1 H2 H3 H4 W1 W2 W3 W4 Hfail.
  assert (image_files (fst (cacheMap w p s))
          = <[destPath w d "type" := type]>
              (<[destPath w d "height" := height]>
                 (<[destPath w d "metal" := metal]>
                    (<[destPath w d "texture" := texture]> (image_files s))))
          ∧ cachedMaps (fst (cacheMap w p s)) = cachedMaps s
          ∧ maps_table (fst (cacheMap w p s)) = maps_table s) as (Hf & Hc & Ht).
  { unfold_M. rewrite Hm, Hd, H1, W1, H2, W2, H3, W3, H4, W4. cbn.
    destruct Hfail as [[Hnone Hprep]|Hget].
    - rewrite Hnone, Hprep. done.
    - destruct (preparedStatements s !! "addMap"); cbn.
      + rewrite Hget. done.
      + destruct (db_prepare w addMap_sql); cbn; [|done].
        rewrite Hget. done. }
  split; [done|]. split; [|done].
  intros name Hname. rewrite Hf. by apply four_files_written.
Qed.

Lemma cacheMap_no_rollback_witness :
  is_Some (image_files
             (fst (cacheMap Cases.readOnly "/data/maps/a.sd7" Fixture.fresh))
           !! "/data/map-images/a-texture.png")
  ∧ cachedMaps (fst (cacheMap Cases.readOnly "/data/maps/a.sd7" Fixture.fresh))
    = ∅.
Proof.
  destruct (cacheMap_no_rollback Cases.readOnly "/data/maps/a.sd7" Fixture.fresh
              (Fixture.plain "a" ".sd7")
              (match parseMapData (Fixture.plain "a" ".sd7") with
               | Ok d => d | Throw _ => Fixture.oldRecord end)
              (Fixture.raster 1) (Fixture.raster 2) (Fixture.raster 3)
              (Fixture.raster 4))
    as (_ & Hfiles & Hc & _); try reflexivity.
  - right. reflexivity.
  - split; [|exact Hc].
    apply (Hfiles "texture"). apply (bool_decide_unpack _). vm_compute. exact I.
Defined.

(** X4. A batch never deletes anything: a key of the index, a row of the
    table and an image file that exist before the batch exist after it;
    and, when the parser reports each listed archive under its file name,
    the record and the row of a name that the directory no longer lists
    are exactly what they were (entries of removed archives are not
    pruned). *)
Theorem cacheMaps_never_deletes (w : World) (recacheAll : bool) (s : State) :
  (∀ k, is_Some (cachedMaps s !! k) →
        is_Some (cachedMaps (fst (cacheMaps w recacheAll s)) !! k))
  ∧ (∀ k, is_Some (maps_table s !! k) →
          is_Some (maps_table (fst (cacheMaps w recacheAll s)) !! k))
  ∧ (∀ path, is_Some (image_files s !! path) →
             is_Some (image_files (fst (cacheMaps w recacheAll s)) !! path))
  ∧ (∀ names k,
       parser_names w →
       fs_readdir w (getMapsPath w) = Some names →
       k ∉ names →
       cachedMaps (fst (cacheMaps w recacheAll s)) !! k = cachedMaps s !! k
       ∧ maps_table (fst (cacheMaps w recacheAll s)) !! k = maps_table s !! k).
Proof.
  split; [|split; [|split]].
  - intros k.
    apply (cacheMaps_preserves (fun s => is_Some (cachedMaps s !! k)));
      [done|].
    clear. intros f s _ Hk.
    destruct (cacheMap_try_cases w (mapFilePath w f) s) as [H|[e H]].
    + apply cacheMap_ok in H as (m & d & _ & _ & Hc & _).
      rewrite Hc. by apply lookup_assign_is_Some.
    + apply cacheMap_throw in H as (Hc & _). by rewrite Hc.
  - intros k.
    apply (cacheMaps_preserves (fun s => is_Some (maps_table s !! k)));
      [done|].
    clear. intros f s _. apply cacheMap_keeps.
  - intros path.
    apply (cacheMaps_preserves (fun s => is_Some (image_files s !! path)));
      [done|].
    clear. intros f s _. apply cacheMap_keeps.
  - intros names k Hnames Hdir Hk.
    apply cacheMaps_frame; [done|]. intros Hin. apply Hk.
    assert (k ∈ workSet recacheAll s names) as Hw.
    { apply (outcomes_work _ _ _ _ _ Hdir). eauto. }
    by apply elem_of_workSet in Hw as (? & _).
Qed.

Lemma cacheMaps_never_deletes_witness :
  cachedMaps (fst (cacheMaps Fixture.threeArchives true Fixture.indexed))
    !! "b.sd7"
  = Some Fixture.oldRecord
  ∧ cachedMaps
      (fst (cacheMaps Fixture.healthy true Fixture.indexed)) !! "b.sd7"
    = cachedMaps Fixture.indexed !! "b.sd7".
Proof.
  split; [vm_compute; reflexivity|].
  refine (proj1 (proj2 (proj2 (proj2
    (cacheMaps_never_deletes Fixture.healthy true Fixture.indexed)))
    ["a.sd7"; "c.sdz"; "readme.txt"] "b.sd7" (twoValid_names _) eq_refl _)).
  apply (bool_decide_unpack _). vm_compute. exact I.
Defined.

(** ** Accounting of a batch *)

Lemma started_names_app (evs1 evs2 : list Event) :
  started_names (evs1 ++ evs2) = started_names evs1 ++ started_names evs2.
Proof.
  induction evs1 as [|[p|d] evs1 IH]; cbn; [done| |done].
  by rewrite IH.
Qed.

Lemma loop_accounts (w : World) (total : nat) (l : list string) (n : nat)
  (s : State) :
  ∃ evs errs,
    ipcMain (fst (cacheMaps_loop w total l n s)) = ipcMain s ++ evs
    ∧ console (fst (cacheMaps_loop w total l n s)) = console s ++ errs
    ∧ started_names evs = l
    ∧ (completed_in evs + length errs = length l)%nat
    ∧ errs.*1 `sublist_of` List.map (fun f => caching_error (mapFilePath w f)) l.
Proof.
  revert n s. induction l as [|f l IH]; intros n s.
  - exists [], []. cbn. by rewrite !app_nil_r.
  - rewrite loop_cons.
    set (s0 := set_ipcMain _ s).
    destruct (IH (S n) (fst (cacheMap w (mapFilePath w f) s0)))
      as (evs & errs & E & C & Hn & Hc & Hs).
    destruct (cacheMap_try_cases w (mapFilePath w f) s0) as [H|[e H]].
    + apply cacheMap_ok in H as (m & d & _ & _ & _ & _ & Hi & _ & Hl).
      exists ([progress total n f; map_cached d] ++ evs), errs.
      rewrite E, C, Hi, Hl. cbn [ipcMain console s0 set_ipcMain].
      split; [by rewrite <- !app_assoc|]. split; [done|].
      split; [cbn; by rewrite Hn|].
      split; [rewrite completed_in_app; cbn; lia|].
      cbn [List.map]. by apply sublist_cons.
    + apply cacheMap_throw in H as (_ & _ & Hi & _ & Hl).
      exists ([progress total n f] ++ evs),
             ((caching_error (mapFilePath w f), e) :: errs).
      rewrite E, C, Hi, Hl. cbn [ipcMain console s0 set_ipcMain].
      split; [by rewrite <- !app_assoc|].
      split; [by rewrite <- app_assoc|].
      split; [cbn; by rewrite Hn|].
      split; [rewrite completed_in_app; cbn; lia|].
      cbn [List.map fmap list_fmap]. by apply sublist_skip.
Qed.

(** *** With listeners *)

Lemma listened_emit_silent (e : Event) (s : State) :
  Listened.emit Listened.silent e s = emit e s.
Proof. reflexivity. Qed.

(** An item whose work fails before the event is sent never reaches the
    listeners. *)
Lemma listened_cacheMap_throw (L : Listened.Listeners) (w : World)
  (p : string) (s : State) (e : Err) :
  snd (cacheMap_try w p s) = Throw e →
  Listened.cacheMap L w p s = cacheMap w p s.
Proof.
  unfold Listened.cacheMap, Listened.cacheMap_try, Listened.emit.
  unfold_M. intros H. repeat step_M.
  all: simplify_eq; cbn; done.
Qed.

(** An item whose work runs to the event: when the listeners return, it
    is as without listeners; when one throws, the record is cached and
    the [catch] clause writes the error of the listener. *)
Lemma listened_cacheMap_ok (L : Listened.Listeners) (w : World)
  (p : string) (s : State) :
  snd (cacheMap_try w p s) = Ok tt →
  ∃ d,
    ipcMain (fst (cacheMap w p s)) = ipcMain s ++ [map_cached d]
    ∧ console (fst (cacheMap w p s)) = console s
    ∧ Listened.cacheMap L w p s
      = match L (ipcMain s) (map_cached d) with
        | None => cacheMap w p s
        | Some e =>
            (set_console (fun l => l ++ [(caching_error p, e)])
               (fst (cacheMap w p s)), Ok tt)
        end.
Proof.
  unfold Listened.cacheMap, Listened.cacheMap_try, Listened.emit.
  unfold_M. intros H. repeat step_M.
  all: simplify_eq; eexists; cbn.
  all: split; [reflexivity|]; split; [reflexivity|].
  all: match goal with
       | H : ?l _ (map_cached _) = _ |- _ => cbn in H; by rewrite H
       end.
Qed.

Lemma listened_cacheMap_returns (L : Listened.Listeners) (w : World)
  (p : string) (s : State) :
  snd (Listened.cacheMap L w p s) = Ok tt.
Proof.
  destruct (cacheMap_try_cases w p s) as [H|[e H]].
  - destruct (listened_cacheMap_ok L w p s H) as (d & _ & _ & ->).
    destruct (L (ipcMain s) (map_cached d)); [done|apply cacheMap_returns].
  - rewrite (listened_cacheMap_throw L w p s e H). apply cacheMap_returns.
Qed.

Lemma listened_cacheMap_silent (w : World) (p : string) (s : State) :
  Listened.cacheMap Listened.silent w p s = cacheMap w p s.
Proof.
  destruct (cacheMap_try_cases w p s) as [H|[e H]].
  - by destruct (listened_cacheMap_ok Listened.silent w p s H)
      as (d & _ & _ & ->).
  - by apply listened_cacheMap_throw with e.
Qed.

(** One turn of the loop. *)
Lemma listened_loop_cons (L : Listened.Listeners) (w : World) (total : nat)
  (f : string) (l : list string) (n : nat) (s : State) :
  Listened.cacheMaps_loop L w total (f :: l) n s
  = match L (ipcMain s) (progress total n f) with
    | Some e =>
        (set_ipcMain (fun evs => evs ++ [progress total n f]) s, Throw e)
    | None =>
        Listened.cacheMaps_loop L w total l (S n)
          (fst (Listened.cacheMap L w (mapFilePath w f)
                  (set_ipcMain (fun evs => evs ++ [progress total n f]) s)))
    end.
Proof.
  cbn [Listened.cacheMaps_loop].
  unfold Listened.emit, mbind, M_bind, modify, gets, throw, mret, M_ret,
    progress. cbn.
  destruct (L (ipcMain s) _); [done|].
  pose proof (listened_cacheMap_returns L w (mapFilePath w f)
    (set_ipcMain (fun evs => evs ++ [progress total n f]) s)) as R.
  unfold progress in R.
  destruct (Listened.cacheMap L w (mapFilePath w f) _) as [s' r].
  cbn in *. by subst.
Qed.

Lemma listened_loop_silent (w : World) (total : nat) (l : list string)
  (n : nat) (s : State) :
  Listened.cacheMaps_loop Listened.silent w total l n s
  = cacheMaps_loop w total l n s.
Proof.
  revert n s. induction l as [|f l IH]; intros n s; [done|].
  rewrite listened_loop_cons, loop_cons. cbn.
  by rewrite listened_cacheMap_silent, IH.
Qed.

Lemma listened_listed (L : Listened.Listeners) (w : World) (recacheAll : bool)
  (s : State) (names : list string) :
  fs_readdir w (getMapsPath w) = Some names →
  Listened.cacheMaps L w recacheAll s
  = Listened.cacheMaps_loop L w (length (workSet recacheAll s names))
      (workSet recacheAll s names) 0 s.
Proof.
  intros H.
  unfold Listened.cacheMaps, readdir, gets, mbind, M_bind, mret, M_ret.
  by rewrite H.
Qed.

Lemma listened_unlisted (L : Listened.Listeners) (w : World)
  (recacheAll : bool) (s : State) :
  fs_readdir w (getMapsPath w) = None →
  Listened.cacheMaps L w recacheAll s
  = (s, Throw (ReaddirError (getMapsPath w))).
Proof.
  intros H. unfold Listened.cacheMaps, readdir, throw, mbind, M_bind.
  by rewrite H.
Qed.

(** The batch with listeners that never throw is the batch without
    listeners. *)
Lemma listened_silent (w : World) (recacheAll : bool) (s : State) :
  Listened.cacheMaps Listened.silent w recacheAll s = cacheMaps w recacheAll s.
Proof.
  destruct (fs_readdir w (getMapsPath w)) as [names|] eqn:Hdir.
  - rewrite (listened_listed _ _ _ _ _ Hdir), (cacheMaps_listed _ _ _ _ Hdir).
    apply listened_loop_silent.
  - by rewrite (listened_unlisted _ _ _ _ Hdir), (cacheMaps_unlisted _ _ _ Hdir).
Qed.









Lemma List_filter_sublist (P : string → bool) (l : list string) :
  List.filter P l `sublist_of` l.
Proof.
  induction l as [|x l IH]; cbn; [constructor|].
  destruct (P x); by constructor.
Qed.

(** X6. The parser is called for the items of the work set and for
    nothing else: the paths handed to it during a batch are those of a
    sub-list of the listing, in the order of the listing, and a file is
    among them exactly when it is listed, has one of the two extensions
    and, unless the batch is forced, is not a key of the index. *)
Theorem cacheMaps_parses_only_work (w : World) (recacheAll : bool) (s : State)
  (names : list string) :
  fs_readdir w (getMapsPath w) = Some names →
  ∃ work,
    parser_calls (fst (cacheMaps w recacheAll s))
    = parser_calls s ++ List.map (mapFilePath w) work
    ∧ work `sublist_of` names
    ∧ ∀ f, f ∈ work
           ↔ f ∈ names
             ∧ recognized f = true
             ∧ (recacheAll = true ∨ cachedMaps s !! f = None).
Proof.
  intros Hdir. exists (workSet recacheAll s names).
  rewrite (cacheMaps_listed _ _ _ _ Hdir).
  split; [apply loop_parser_calls|]. split; [apply List_filter_sublist|].
  intros f. rewrite elem_of_workSet. tauto.
Qed.

Lemma cacheMaps_parses_only_work_witness :
  ∃ work,
    parser_calls (fst (cacheMaps Fixture.threeArchives false Fixture.indexed))
    = parser_calls Fixture.indexed
      ++ List.map (mapFilePath Fixture.threeArchives) work
    ∧ ("readme.txt" ∉ work)
    ∧ ("b.sd7" ∉ work).
Proof.
  destruct (cacheMaps_parses_only_work Fixture.threeArchives false
              Fixture.indexed ["a.sd7"; "b.sd7"; "c.sdz"; "readme.txt"] eq_refl)
    as (work & Hcalls & _ & Hwork).
  exists work. split; [exact Hcalls|]. split.
  - intros Hin. apply Hwork in Hin as (_ & Hr & _). discriminate Hr.
  - intros Hin. apply Hwork in Hin as (_ & _ & [Hf|Hf]); [discriminate Hf|].
    vm_compute in Hf. discriminate Hf.
Defined.

Lemma List_filter_ext_in (P Q : string → bool) (l : list string) :
  (∀ x, x ∈ l → P x = Q x) → List.filter P l = List.filter Q l.
Proof.
  induction l as [|x l IH]; intros H; [done|].
  cbn. rewrite (H x) by (by left). rewrite IH; [done|].
  intros y Hy. apply H. by right.
Qed.

(** X7. The flag [recacheAll] matters only for archives that are in the
    index: when no listed file with one of the two extensions is a key of
    the index (an empty index, for instance), the forced batch and the
    incremental batch are the same computation, with the same final state
    and result. *)
Theorem forced_is_incremental_when_new (w : World) (s : State)
  (names : list string) :
  fs_readdir w (getMapsPath w) = Some names →
  (∀ f, f ∈ names → recognized f = true → cachedMaps s !! f = None) →
  cacheMaps w true s = cacheMaps w false s.
Proof.
  intros Hdir Hnew. rewrite !(cacheMaps_listed _ _ _ _ Hdir).
  assert (workSet true s names = workSet false s names) as ->; [|done].
  unfold workSet, mapsToCache. apply List_filter_ext_in. intros f Hf. cbn.
  destruct (recognized f) eqn:Hr; [|by rewrite !andb_false_r].
  by rewrite (proj2 (includes_keys_false _ _) (Hnew f Hf Hr)).
Qed.

Lemma forced_is_incremental_when_new_witness :
  cacheMaps Fixture.threeArchives true Fixture.fresh
  = cacheMaps Fixture.threeArchives false Fixture.fresh.
Proof.
  apply (forced_is_incremental_when_new Fixture.threeArchives Fixture.fresh
           ["a.sd7"; "b.sd7"; "c.sdz"; "readme.txt"] eq_refl).
  intros f _ _. apply lookup_empty.
Defined.

(** ** The record of an archive, further *)

Lemma teams_startPos_throws (ts : list (option Team.t)) :
  (∃ e, teams_startPos ts = Throw e) ↔ has_hole ts.
Proof.
  unfold has_hole. induction ts as [|[t|] ts IH]; cbn.
  - split; [by intros [e He]|by intros H%elem_of_nil].
  - destruct (teams_startPos ts) as [ps|e].
    + split; [by intros [e He]|].
      intros H. apply elem_of_cons in H as [H|H]; [done|].
      apply IH in H as [e He]. done.
    + split; [|eauto]. intros _. right. apply IH. eauto.
  - split; [intros _; by left|eauto].
Qed.

(** X8. [parseMapData] throws in two cases only, and in both with a
    TypeError: the header of the map file (smf) is missing, or the list of
    teams of the modern metadata has an undefined entry.  Missing metadata
    blocks, missing fields and missing images never make it throw. *)
Theorem parseMapData_throws_iff (m : SpringMap.t) :
  ((∃ e, parseMapData m = Throw e)
   ↔ SpringMap.smf m = None
     ∨ ∃ ts, SpringMap.mapInfo m ≫= MapInfo.teams = Some ts ∧ has_hole ts)
  ∧ (∀ e, parseMapData m = Throw e → ∃ what, e = TypeError what).
Proof.
  unfold parseMapData, modern_startPositions.
  destruct (SpringMap.mapInfo m ≫= MapInfo.teams) as [ts|].
  - pose proof (teams_startPos_throws ts) as Hts.
    destruct (teams_startPos ts) as [ps|e0] eqn:Hps.
    + destruct (SpringMap.smf m) as [smf|]; split.
      * split; [by intros [e He]|].
        intros [H|(ts' & [= <-] & Hhole)]; [done|].
        apply Hts in Hhole as [e He]. done.
      * done.
      * split; eauto.
      * intros e [= <-]. eauto.
    + split.
      * split; [|eauto]. intros _. right. exists ts. split; [done|].
        apply Hts. eauto.
      * intros e [= <-]. clear Hts. revert e0 Hps.
        induction ts as [|[t|] ts IH]; cbn; intros e0 Hps; [done| |].
        -- destruct (teams_startPos ts); [done|]. injection Hps as <-. eauto.
        -- injection Hps as <-. eauto.
  - destruct (SpringMap.smf m) as [smf|]; split.
    + split; [by intros [e He]|]. intros [H|(ts' & H & _)]; done.
    + done.
    + split; eauto.
    + intros e [= <-]. eauto.
Qed.

Lemma parseMapData_throws_iff_witness :
  ∃ what, parseMapData Cases.noHeader = Throw (TypeError what).
Proof.
  destruct (parseMapData_throws_iff Cases.noHeader) as [Hiff Htype].
  destruct (proj2 Hiff (or_introl eq_refl)) as [e He].
  destruct (Htype e He) as [what ->]. by exists what.
Defined.

Lemma teams_startPos_positions (ts : list (option Team.t))
  (ps : list (option StartPos.t)) :
  teams_startPos ts = Ok ps →
  length ps = length ts
  ∧ ∀ i t, ts !! i = Some (Some t) → ps !! i = Some (Team.startPos t).
Proof.
  revert ps. induction ts as [|[t|] ts IH]; cbn; intros ps H.
  - injection H as <-. split; [done|]. intros i t Hi. by destruct i.
  - destruct (teams_startPos ts) as [ps'|]; [|done]. injection H as <-.
    destruct (IH ps' eq_refl) as [Hlen Hnth]. split; [cbn; by rewrite Hlen|].
    intros [|i] t' Hi; cbn in *; [by injection Hi as <-|by apply Hnth].
  - done.
Qed.

(** X9. When the modern metadata has a list of teams, the start positions
    of the record are the start positions of those teams, one per team
    and in the order of the teams, whatever the legacy metadata holds; in
    particular an empty list of teams gives an empty list of start
    positions even when the legacy block has positions. *)
Theorem parseMapData_team_positions (m : SpringMap.t) (d : MapData.t)
  (ts : list (option Team.t)) :
  parseMapData m = Ok d →
  SpringMap.mapInfo m ≫= MapInfo.teams = Some ts →
  ∃ ps,
    MapData.startPositions d = Some ps
    ∧ length ps = length ts
    ∧ (∀ i t, ts !! i = Some (Some t) → ps !! i = Some (Team.startPos t))
    ∧ (ts = [] → ps = []).
Proof.
  unfold parseMapData, modern_startPositions. intros H Hts. rewrite Hts in H.
  destruct (teams_startPos ts) as [ps|] eqn:Hps; [|done].
  destruct (SpringMap.smf m); [|done]. injection H as <-. cbn.
  exists ps. split; [done|].
  destruct (teams_startPos_positions _ _ Hps) as [Hlen Hnth].
  split; [done|]. split; [done|].
  intros ->. by destruct ps.
Qed.

Lemma parseMapData_team_positions_witness :
  SpringMap.smd Cases.emptyTeams ≫= SMD.startPositions
  = Some [StartPos.mk (Fixture.q 1) (Fixture.q 2);
          StartPos.mk (Fixture.q 3) (Fixture.q 4)]
  ∧ ∃ d, parseMapData Cases.emptyTeams = Ok d
         ∧ MapData.startPositions d = Some [].
Proof.
  split; [reflexivity|]. eexists. split; [reflexivity|].
  destruct (parseMapData_team_positions Cases.emptyTeams _ [] eq_refl eq_refl)
    as (ps & Hps & _ & _ & Hnil).
  rewrite Hps. by rewrite (Hnil eq_refl).
Defined.

(** ** Prepared statements *)

(** X10. For a key that is not a property name of [Object.prototype]
    (such are [getMaps] and [addMap], the two keys the class uses),
    [prepareStatement] keeps one statement per key: when it fails, it
    leaves the object as it was; when it returns a statement, every later
    call with the same key returns that same statement and changes
    nothing, whatever statement text it is given and whether or not the
    database could prepare it. *)
Theorem prepareStatement_memo (w : World) (key statement : string) (s : State) :
  key ∉ Object_prototype_names →
  (∀ e, snd (prepareStatement w key statement s) = Throw e →
        fst (prepareStatement w key statement s) = s)
  ∧ (∀ query, snd (prepareStatement w key statement s) = Ok query →
     ∀ w' statement',
       prepareStatement w' key statement'
         (fst (prepareStatement w key statement s))
       = (fst (prepareStatement w key statement s), Ok query)).
Proof.
  intros Hown.
  assert (key ≠ "__proto__") as Hkey.
  { intros ->. apply Hown. apply (bool_decide_unpack _). vm_compute. exact I. }
  unfold prepareStatement, gets, modify, throw, mbind, M_bind, mret, M_ret.
  destruct (preparedStatements s !! key) as [q|] eqn:Hq; cbn.
  - split; [done|]. intros query [= <-] w' statement'. by rewrite Hq.
  - destruct (db_prepare w statement); cbn.
    + split; [done|]. intros query [= <-] w' statement'.
      by rewrite lookup_assign_eq.
    + split; [done|]. done.
Qed.

Lemma prepareStatement_memo_witness :
  prepareStatement Cases.readOnly "addMap" "SELECT 1"
    (fst (prepareStatement Fixture.threeArchives "addMap" addMap_sql
            Fixture.fresh))
  = (fst (prepareStatement Fixture.threeArchives "addMap" addMap_sql
            Fixture.fresh), Ok addMap_sql).
Proof.
  assert ("addMap" ∉ Object_prototype_names) as Hown.
  { apply (bool_decide_unpack _). vm_compute. exact I. }
  apply (proj2 (prepareStatement_memo Fixture.threeArchives "addMap"
                  addMap_sql Fixture.fresh Hown)).
  reflexivity.
Defined.

(** ** Start-up *)

Lemma forEach_row_quiet (b : Startup) (rows : list (string * string))
  (a : Process) :
  database (fst (forEach_row b rows a)) = database a
  ∧ handlers (fst (forEach_row b rows a)) = handlers a
  ∧ preparedStatements (cache (fst (forEach_row b rows a)))
    = preparedStatements (cache a)
  ∧ maps_table (cache (fst (forEach_row b rows a))) = maps_table (cache a)
  ∧ image_files (cache (fst (forEach_row b rows a))) = image_files (cache a)
  ∧ ipcMain (cache (fst (forEach_row b rows a))) = ipcMain (cache a)
  ∧ console (cache (fst (forEach_row b rows a))) = console (cache a)
  ∧ parser_calls (cache (fst (forEach_row b rows a))) = parser_calls (cache a).
Proof.
  revert a. induction rows as [|[k data] rows IH]; intros a; [done|].
  cbn [forEach_row]. destruct (JSON_parse b data) as [d|]; [|done].
  unfold bindP, liftP, modify. cbn.
  destruct (IH (set_cache
                  (fun _ => set_cachedMaps (assign k d) (cache a)) a))
    as (-> & -> & -> & -> & -> & -> & -> & ->).
  done.
Qed.

Lemma forEach_row_loads (b : Startup) (rows : list (string * string))
  (a : Process) :
  (∀ k data, (k, data) ∈ rows → is_Some (JSON_parse b data)) →
  snd (forEach_row b rows a) = Fulfilled tt
  ∧ cachedMaps (cache (fst (forEach_row b rows a)))
    = load_rows b rows (cachedMaps (cache a)).
Proof.
  revert a. induction rows as [|[k data] rows IH]; intros a Hrows; [done|].
  cbn [forEach_row load_rows foldl].
  destruct (Hrows k data) as [d Hd]; [by left|]. cbn. rewrite Hd.
  unfold bindP, liftP, modify. cbn.
  destruct (IH (set_cache
                  (fun _ => set_cachedMaps (assign k d) (cache a)) a))
    as [-> ->]; [|done].
  intros k' data' Hin. apply (Hrows k' data'). by right.
Qed.

Lemma forEach_row_rejects (b : Startup) (rows : list (string * string))
  (a : Process) (k data : string) :
  (k, data) ∈ rows →
  JSON_parse b data = None →
  ∃ k' data',
    (k', data') ∈ rows
    ∧ JSON_parse b data' = None
    ∧ snd (forEach_row b rows a) = Rejected (SyntaxError data').
Proof.
  revert a. induction rows as [|[k0 data0] rows IH]; intros a Hin Hbad.
  - by apply elem_of_nil in Hin.
  - cbn [forEach_row]. destruct (JSON_parse b data0) as [d|] eqn:Hd.
    + apply elem_of_cons in Hin as [Hin|Hin]; [congruence|].
      unfold bindP, liftP, modify. cbn.
      destruct (IH (set_cache
                      (fun _ => set_cachedMaps (assign k0 d) (cache a)) a)
                  Hin Hbad) as (k' & data' & Hin' & Hbad' & Hrej).
      exists k', data'. split; [by right|done].
    + exists k0, data0. split; [by left|done].
Qed.

Lemma load_rows_lookup (b : Startup) (rows : list (string * string))
  (index : gmap string MapData.t) (k : string) :
  NoDup rows.*1 →
  (∀ k data, (k, data) ∈ rows → is_Some (JSON_parse b data)) →
  k ≠ "__proto__" →
  load_rows b rows index !! k
  = match (list_to_map rows : gmap string string) !! k with
    | Some data => JSON_parse b data
    | None => index !! k
    end.
Proof.
  intros Hnd Hparse Hk. revert index.
  induction rows as [|[k0 data0] rows IH]; intros index; [done|].
  cbn in Hnd. apply NoDup_cons in Hnd as [Hfresh Hnd].
  destruct (Hparse k0 data0) as [d0 Hd0]; [by left|].
  cbn [load_rows foldl list_to_map foldr]. cbn. rewrite Hd0.
  fold (load_rows b rows (assign k0 d0 index)).
  rewrite IH; [|done|intros k' data' Hin; apply (Hparse k' data'); by right].
  destruct (decide (k0 = k)) as [->|Hne].
  - rewrite lookup_insert_eq.
    rewrite (not_elem_of_list_to_map_1 _ _ Hfresh).
    by rewrite lookup_assign_eq.
  - rewrite lookup_insert_ne by done.
    by rewrite lookup_assign_ne.
Qed.

(** The effect of the load on a process whose database opens and whose
    rows all parse. *)
Lemma init_load_loads (w : World) (b : Startup) (a : Process)
  (rows : list (string * string)) :
  opens w b a rows →
  (∀ k data, (k, data) ∈ rows → is_Some (JSON_parse b data)) →
  ipcMain_handle b (handlers a) "getCachedMaps" = true →
  ipcMain_handle b (handlers a ++ ["getCachedMaps"]) "getCachedMap" = true →
  snd (init_load w b a) = Fulfilled tt
  ∧ cachedMaps (cache (fst (init_load w b a)))
    = load_rows b rows (cachedMaps (cache a))
  ∧ handlers (fst (init_load w b a))
    = handlers a ++ ["getCachedMaps"; "getCachedMap"]
  ∧ database (fst (init_load w b a)) = Some (cache_db w b)
  ∧ maps_table (cache (fst (init_load w b a))) = maps_table (cache a)
  ∧ image_files (cache (fst (init_load w b a))) = image_files (cache a)
  ∧ ipcMain (cache (fst (init_load w b a))) = ipcMain (cache a)
  ∧ console (cache (fst (init_load w b a))) = console (cache a)
  ∧ parser_calls (cache (fst (init_load w b a))) = parser_calls (cache a).
Proof.
  intros (Hopen & Hrun & Hprep & Hall) Hparse Hh1 Hh2.
  unfold init_load, bindP, open, run, all, handle, liftP, prepareStatement,
    gets, modify, throw, mbind, M_bind, mret, M_ret.
  rewrite Hopen, Hrun. cbn.
  destruct (preparedStatements (cache a) !! "getMaps") as [q|] eqn:Hq; cbn.
  - rewrite Hall.
    match goal with |- context [forEach_row b rows ?a0] =>
      destruct (forEach_row_loads b rows a0 Hparse) as [Hok Hidx];
      destruct (forEach_row_quiet b rows a0)
        as (Hdb & Hh & _ & Ht & Hf & Hi & Hc & Hp);
      destruct (forEach_row b rows a0) as [a1 r] end.
    cbn in *. subst r. rewrite Hh, Hh1. cbn. rewrite Hh2. cbn.
    rewrite <- app_assoc. done.
  - destruct Hprep as [[q' Hq']|Hprep]; [done|]. rewrite Hprep. cbn.
    rewrite Hall.
    match goal with |- context [forEach_row b rows ?a0] =>
      destruct (forEach_row_loads b rows a0 Hparse) as [Hok Hidx];
      destruct (forEach_row_quiet b rows a0)
        as (Hdb & Hh & _ & Ht & Hf & Hi & Hc & Hp);
      destruct (forEach_row b rows a0) as [a1 r] end.
    cbn in *. subst r. rewrite Hh, Hh1. cbn. rewrite Hh2. cbn.
    rewrite <- app_assoc. done.
Qed.

(** The load touches neither the table nor the files, sends no event and
    calls the parser for nothing, however it ends. *)
Lemma init_load_quiet (w : World) (b : Startup) (a : Process) :
  maps_table (cache (fst (init_load w b a))) = maps_table (cache a)
  ∧ image_files (cache (fst (init_load w b a))) = image_files (cache a)
  ∧ ipcMain (cache (fst (init_load w b a))) = ipcMain (cache a)
  ∧ console (cache (fst (init_load w b a))) = console (cache a)
  ∧ parser_calls (cache (fst (init_load w b a))) = parser_calls (cache a).
Proof.
  unfold init_load, bindP, open, run, all, handle, liftP, prepareStatement,
    gets, modify, throw, mbind, M_bind, mret, M_ret.
  destruct (sqlite_open b (cache_db w b)); [|done].
  destruct (db_run b createTable_sql); [|done]. cbn.
  destruct (preparedStatements (cache a) !! "getMaps") as [q|]; cbn.
  - destruct (statement_all b (maps_table (cache a))) as [rows|]; [|done].
    match goal with |- context [forEach_row b rows ?a0] =>
      destruct (forEach_row_quiet b rows a0)
        as (_ & _ & _ & Ht & Hf & Hi & Hc & Hp);
      destruct (forEach_row b rows a0) as [a1 [[]|e]] end; [|done].
    cbn in *.
    destruct (ipcMain_handle b (handlers a1) "getCachedMaps"); [|done]. cbn.
    destruct (ipcMain_handle b (handlers a1 ++ ["getCachedMaps"]) "getCachedMap");
      done.
  - destruct (db_prepare w getMaps_sql); [|done]. cbn.
    destruct (statement_all b (maps_table (cache a))) as [rows|]; [|done].
    match goal with |- context [forEach_row b rows ?a0] =>
      destruct (forEach_row_quiet b rows a0)
        as (_ & _ & _ & Ht & Hf & Hi & Hc & Hp);
      destruct (forEach_row b rows a0) as [a1 [[]|e]] end; [|done].
    cbn in *.
    destruct (ipcMain_handle b (handlers a1) "getCachedMaps"); [|done]. cbn.
    destruct (ipcMain_handle b (handlers a1 ++ ["getCachedMaps"]) "getCachedMap");
      done.
Qed.

Lemma load_rows_proto (b : Startup) (rows : list (string * string))
  (index : gmap string MapData.t) :
  index !! "__proto__" = None →
  load_rows b rows index !! "__proto__" = None.
Proof.
  revert index. induction rows as [|[k data] rows IH]; intros index H; [done|].
  cbn [load_rows foldl]. cbn.
  fold (load_rows b rows
          (match JSON_parse b data with
           | Some mapData => assign k mapData index
           | None => index
           end)).
  apply IH. destruct (JSON_parse b data); [|done].
  unfold assign. destruct (String.eqb_spec k "__proto__"); [done|].
  by rewrite lookup_insert_ne.
Qed.

Lemma init_settles (w : World) (b : Startup) (a : Process) :
  snd (init w b a) = snd (init_load w b a)
  ∧ (∀ e, snd (init_load w b a) = Rejected e →
          fst (init w b a) = fst (init_load w b a)).
Proof.
  unfold init, bindP, detached.
  destruct (init_load w b a) as [a1 [[]|e]]; cbn; split; try done.
Qed.

(** X11. [init] settles as its load does, and the batch it starts is not
    awaited: when a step of the load fails (opening the database, creating
    the table, preparing or running the query, parsing a row, registering
    a handler), [init] rejects with that error and no batch is started
    (no file is handed to the parser, no event is sent, the table and the
    image files are untouched); when the load succeeds, [init] fulfils
    whatever the batch does, and if the maps directory cannot be listed
    the process is left as the load left it. *)
Theorem init_settles_as_load (w : World) (b : Startup) (a : Process) :
  snd (init w b a) = snd (init_load w b a)
  ∧ (∀ e, snd (init_load w b a) = Rejected e →
       parser_calls (cache (fst (init w b a))) = parser_calls (cache a)
       ∧ ipcMain (cache (fst (init w b a))) = ipcMain (cache a)
       ∧ console (cache (fst (init w b a))) = console (cache a)
       ∧ maps_table (cache (fst (init w b a))) = maps_table (cache a)
       ∧ image_files (cache (fst (init w b a))) = image_files (cache a))
  ∧ (snd (init_load w b a) = Fulfilled tt →
     fs_readdir w (getMapsPath w) = None →
     fst (init w b a) = fst (init_load w b a)).
Proof.
  destruct (init_settles w b a) as [Hsnd Hrej].
  split; [done|]. split.
  - intros e He. rewrite (Hrej e He).
    destruct (init_load_quiet w b a) as (-> & -> & -> & -> & ->). done.
  - intros Hok Hdir. unfold init, bindP, detached, liftP.
    destruct (init_load w b a) as [a1 r]. cbn in Hok. subst r. cbn.
    rewrite (cacheMaps_unlisted _ _ _ Hdir). cbn. by destruct a1.
Qed.

Lemma init_settles_as_load_witness :
  snd (init Fixture.threeArchives Cases.startup Cases.corruptRow)
  = Rejected (SyntaxError "not json")
  ∧ parser_calls
      (cache (fst (init Fixture.threeArchives Cases.startup Cases.corruptRow)))
    = [].
Proof.
  destruct (init_settles_as_load Fixture.threeArchives Cases.startup
              Cases.corruptRow) as (Hsnd & Hquiet & _).
  assert (snd (init_load Fixture.threeArchives Cases.startup Cases.corruptRow)
          = Rejected (SyntaxError "not json")) as Hrej
    by (vm_compute; reflexivity).
  split.
  - rewrite Hsnd. exact Hrej.
  - exact (proj1 (Hquiet _ Hrej)).
Defined.

(** X12. One row of the table that does not parse as JSON is enough to
    make [init] reject, with a SyntaxError for such a row: no handler is
    registered and the batch is not started, even though the database
    opened and every other row is sound. *)
Theorem init_corrupt_row (w : World) (b : Startup) (a : Process)
  (rows : list (string * string)) (k data : string) :
  opens w b a rows →
  (k, data) ∈ rows →
  JSON_parse b data = None →
  ∃ k' data',
    (k', data') ∈ rows
    ∧ JSON_parse b data' = None
    ∧ snd (init w b a) = Rejected (SyntaxError data')
    ∧ handlers (fst (init w b a)) = handlers a
    ∧ parser_calls (cache (fst (init w b a))) = parser_calls (cache a).
Proof.
  intros (Hopen & Hrun & Hprep & Hall) Hin Hbad.
  assert (∃ k' data',
            (k', data') ∈ rows ∧ JSON_parse b data' = None
            ∧ snd (init_load w b a) = Rejected (SyntaxError data')
            ∧ handlers (fst (init_load w b a)) = handlers a)
    as (k' & data' & Hin' & Hbad' & Hrej & Hh).
  { unfold init_load, bindP, open, run, all, handle, liftP, prepareStatement,
      gets, modify, throw, mbind, M_bind, mret, M_ret.
    rewrite Hopen, Hrun. cbn.
    destruct (preparedStatements (cache a) !! "getMaps") as [q|] eqn:Hq; cbn.
    - rewrite Hall.
      match goal with |- context [forEach_row b rows ?a0] =>
        destruct (forEach_row_rejects b rows a0 k data Hin Hbad)
          as (k' & data' & Hin' & Hbad' & Hrej);
        destruct (forEach_row_quiet b rows a0) as (_ & Hh & _);
        destruct (forEach_row b rows a0) as [a1 r] end.
      cbn in *. subst r. eauto 6.
    - destruct Hprep as [[q' Hq']|Hprep]; [done|]. rewrite Hprep. cbn.
      rewrite Hall.
      match goal with |- context [forEach_row b rows ?a0] =>
        destruct (forEach_row_rejects b rows a0 k data Hin Hbad)
          as (k' & data' & Hin' & Hbad' & Hrej);
        destruct (forEach_row_quiet b rows a0) as (_ & Hh & _);
        destruct (forEach_row b rows a0) as [a1 r] end.
      cbn in *. subst r. eauto 6. }
  exists k', data'. split; [done|]. split; [done|].
  destruct (init_settles w b a) as [Hsnd Hfst].
  rewrite Hsnd, (Hfst _ Hrej). split; [done|]. split; [done|].
  by destruct (init_load_quiet w b a) as (_ & _ & _ & _ & ->).
Qed.

Lemma init_corrupt_row_witness :
  ∃ data',
    JSON_parse Cases.startup data' = None
    ∧ snd (init Fixture.threeArchives Cases.startup Cases.corruptRow)
      = Rejected (SyntaxError data')
    ∧ handlers (fst (init Fixture.threeArchives Cases.startup Cases.corruptRow))
      = [].
Proof.
  destruct (init_corrupt_row Fixture.threeArchives Cases.startup
              Cases.corruptRow
              (map_to_list (maps_table (cache Cases.corruptRow)))
              "z.sd7" "not json")
    as (k' & data' & _ & Hbad & Hrej & Hh & _).
  - split; [reflexivity|]. split; [reflexivity|].
    split; [right; reflexivity|reflexivity].
  - apply elem_of_map_to_list. vm_compute. reflexivity.
  - reflexivity.
  - exists data'. split; [exact Hbad|]. split; [exact Hrej|exact Hh].
Defined.

Lemma synced_step (w : World) (l : list string) (f : string) (s : State) :
  names_on w l →
  f ∈ l →
  recognized f = true →
  own_keys s ∧ synced w s →
  own_keys (fst (cacheMap w (mapFilePath w f) s))
  ∧ synced w (fst (cacheMap w (mapFilePath w f) s)).
Proof.
  intros Hnames Hin Hr [Hown Hinv].
  destruct (cacheMap_try_cases w (mapFilePath w f) s) as [H|[e H]].
  - apply cacheMap_ok in H as (m & d & Hm & Hd & Hc & Ht & _).
    pose proof (Hnames _ _ Hin Hm) as Hkey.
    rewrite <- (parseMapData_fileNameWithExt _ _ Hd) in Hkey.
    pose proof (recognized_not_proto _ Hr) as Hproto.
    unfold own_keys, synced. rewrite Hc, Ht, Hkey. unfold assign.
    destruct (String.eqb_spec f "__proto__"); [done|].
    split; [by rewrite lookup_insert_ne|]. intros k.
    destruct (decide (f = k)) as [<-|Hne].
    + by rewrite !lookup_insert_eq.
    + rewrite !lookup_insert_ne by done. apply Hinv.
  - apply cacheMap_throw in H as (Hc & Ht & _).
    unfold own_keys, synced. by rewrite Hc, Ht.
Qed.

Lemma synced_batch (w : World) (recacheAll : bool) (s : State) :
  parser_names w →
  own_keys s ∧ synced w s →
  own_keys (fst (cacheMaps w recacheAll s))
  ∧ synced w (fst (cacheMaps w recacheAll s)).
Proof.
  intros Hnames Hs.
  destruct (fs_readdir w (getMapsPath w)) as [names|] eqn:Hdir.
  - rewrite (cacheMaps_listed _ _ _ _ Hdir).
    apply (loop_preserves (fun s => own_keys s ∧ synced w s)); [done| |done].
    intros f s' Hf.
    pose proof Hf as Hw. apply elem_of_workSet in Hw as (Hin & _ & Hr).
    by apply (synced_step w names); [apply Hnames|..].
  - by rewrite (cacheMaps_unlisted _ _ _ Hdir).
Qed.

(** X13. When the parser reports each listed archive under its file name,
    a batch keeps the table and the index in step: if before it the table
    has exactly one row per key of the index, holding the serialized
    record of that key, the same holds after it, whichever items
    failed. *)
Theorem cacheMaps_synced (w : World) (recacheAll : bool) (s : State) :
  parser_names w →
  own_keys s →
  synced w s →
  synced w (fst (cacheMaps w recacheAll s))
  ∧ dom (maps_table (fst (cacheMaps w recacheAll s)))
    = dom (cachedMaps (fst (cacheMaps w recacheAll s))).
Proof.
  intros Hnames Hown Hinv.
  destruct (synced_batch w recacheAll s Hnames (conj Hown Hinv)) as [_ H].
  split; [done|]. apply set_eq. intros k.
  rewrite !elem_of_dom, (H k), fmap_is_Some. done.
Qed.

Lemma fresh_synced (w : World) : own_keys Fixture.fresh ∧ synced w Fixture.fresh.
Proof.
  split; [done|]. intros k. cbn. by rewrite !lookup_empty.
Qed.

Lemma cacheMaps_synced_witness :
  dom (maps_table (fst (cacheMaps Fixture.threeArchives false Fixture.fresh)))
  = dom (cachedMaps (fst (cacheMaps Fixture.threeArchives false Fixture.fresh))).
Proof.
  apply (cacheMaps_synced Fixture.threeArchives false Fixture.fresh).
  - exact (twoValid_names _).
  - exact (proj1 (fresh_synced Fixture.threeArchives)).
  - exact (proj2 (fresh_synced Fixture.threeArchives)).
Defined.

Lemma rows_of_table (rows : list (string * string)) (table : gmap string string) :
  rows ≡ₚ map_to_list table →
  NoDup rows.*1
  ∧ (list_to_map rows : gmap string string) = table
  ∧ ∀ k data, (k, data) ∈ rows ↔ table !! k = Some data.
Proof.
  intros Hperm.
  assert (NoDup rows.*1) as Hnd.
  { rewrite Hperm. apply NoDup_fst_map_to_list. }
  split; [done|]. split.
  - rewrite (list_to_map_proper _ _ Hnd Hperm). apply list_to_map_to_list.
  - intros k data. rewrite Hperm. apply elem_of_map_to_list.
Qed.

Lemma restart_loads (w : World) (b : Startup) (s : State)
  (rows : list (string * string)) :
  own_keys s →
  synced w s →
  (∀ k d, cachedMaps s !! k = Some d →
          JSON_parse b (JSON_stringify w d) = Some d) →
  opens w b (restart s) rows →
  rows ≡ₚ map_to_list (maps_table s) →
  ipcMain_handle b [] "getCachedMaps" = true →
  ipcMain_handle b ["getCachedMaps"] "getCachedMap" = true →
  snd (init_load w b (restart s)) = Fulfilled tt
  ∧ cachedMaps (cache (fst (init_load w b (restart s)))) = cachedMaps s
  ∧ handlers (fst (init_load w b (restart s)))
    = ["getCachedMaps"; "getCachedMap"]
  ∧ parser_calls (cache (fst (init_load w b (restart s)))) = [].
Proof.
  intros Hown Hinv Hround Hopens Hperm Hh1 Hh2.
  destruct (rows_of_table _ _ Hperm) as (Hnd & Hmap & Hrows).
  assert (∀ k data, (k, data) ∈ rows → is_Some (JSON_parse b data)) as Hparse.
  { intros k data Hin. apply Hrows in Hin. rewrite (Hinv k) in Hin.
    destruct (cachedMaps s !! k) as [d|] eqn:Hk; [|done].
    injection Hin as <-. rewrite (Hround _ _ Hk). eauto. }
  destruct (init_load_loads w b (restart s) rows Hopens Hparse Hh1 Hh2)
    as (Hok & Hidx & Hh & _ & _ & _ & _ & _ & Hp).
  split; [done|]. split; [|done].
  rewrite Hidx. apply map_eq. intros k. cbn [restart cache cachedMaps].
  destruct (decide (k = "__proto__")) as [->|Hk].
  - rewrite load_rows_proto by done. by rewrite Hown.
  - rewrite (load_rows_lookup b rows ∅ k Hnd Hparse Hk), Hmap, (Hinv k).
    destruct (cachedMaps s !! k) as [d|] eqn:Hd; cbn;
      [exact (Hround _ _ Hd)|done].
Qed.

(** An incremental batch keeps each record of the index when the parser
    reports each listed archive under its file name. *)
Lemma incremental_keeps (w : World) (s : State) (k : string) (d : MapData.t) :
  parser_names w →
  cachedMaps s !! k = Some d →
  cachedMaps (fst (cacheMaps w false s)) !! k = Some d.
Proof.
  intros Hnames Hd. rewrite <- Hd. apply cacheMaps_frame; [done|].
  intros Hin. unfold outcomes in Hin.
  destruct (fs_readdir w (getMapsPath w)) as [names|];
    [|by apply elem_of_nil in Hin].
  assert (k ∈ workSet false s names) as Hw.
  { eapply loop_outcomes_item. eauto. }
  apply elem_of_workSet in Hw as (_ & [Hf|Hnone] & _); [done|]. congruence.
Qed.

(** X14. What the batches cached, a restart finds again: when the table
    and the index of a process are in step and each record of the index
    parses back from its serialized form, a new process on the same
    table, whose database opens, has after the load of [init] exactly the
    index the old process had, with the two handlers registered and
    without having called the parser, and [init] fulfils; and, when the
    parser reports each listed archive under its file name, once the
    incremental batch that [init] starts has settled, each of those
    records is still in the index, unchanged. *)
Theorem restart_restores_index (w : World) (b : Startup) (s : State)
  (rows : list (string * string)) :
  own_keys s →
  synced w s →
  (∀ k d, cachedMaps s !! k = Some d →
          JSON_parse b (JSON_stringify w d) = Some d) →
  opens w b (restart s) rows →
  rows ≡ₚ map_to_list (maps_table s) →
  ipcMain_handle b [] "getCachedMaps" = true →
  ipcMain_handle b ["getCachedMaps"] "getCachedMap" = true →
  snd (init_load w b (restart s)) = Fulfilled tt
  ∧ cachedMaps (cache (fst (init_load w b (restart s)))) = cachedMaps s
  ∧ handlers (fst (init_load w b (restart s)))
    = ["getCachedMaps"; "getCachedMap"]
  ∧ parser_calls (cache (fst (init_load w b (restart s)))) = []
  ∧ snd (init w b (restart s)) = Fulfilled tt
  ∧ (parser_names w →
     ∀ k d, cachedMaps s !! k = Some d →
            cachedMaps (cache (fst (init w b (restart s)))) !! k = Some d).
Proof.
  intros Hown Hinv Hround Hopens Hperm Hh1 Hh2.
  destruct (restart_loads w b s rows Hown Hinv Hround Hopens Hperm Hh1 Hh2)
    as (Hok & Hidx & Hh & Hp).
  repeat (split; [done|]).
  destruct (init_settles w b (restart s)) as [Hsnd _].
  split; [by rewrite Hsnd|].
  intros Hnames k d Hk. unfold init, bindP, detached, liftP.
  destruct (init_load w b (restart s)) as [a1 r]. cbn in *. subst r. cbn.
  assert (cachedMaps (fst (cacheMaps w false (cache a1))) !! k = Some d)
    as Hkeep.
  { apply incremental_keeps; [done|]. by rewrite Hidx. }
  destruct (cacheMaps w false (cache a1)) as [s' [[]|e]]; cbn in *; done.
Qed.

Lemma cached_index :
  map_to_list (cachedMaps Cases.cached)
  = [("c.sdz", match parseMapData (Fixture.plain "c" ".sdz") with
               | Ok d => d | Throw _ => Fixture.oldRecord end);
     ("a.sd7", match parseMapData (Fixture.plain "a" ".sd7") with
               | Ok d => d | Throw _ => Fixture.oldRecord end)].
Proof. vm_compute. reflexivity. Qed.

Lemma cached_round_trip (k : string) (d : MapData.t) :
  cachedMaps Cases.cached !! k = Some d →
  JSON_parse Cases.startup (JSON_stringify Fixture.healthy d) = Some d.
Proof.
  intros H. apply elem_of_map_to_list in H. rewrite cached_index in H.
  apply elem_of_cons in H as [H|H]; [by injection H as -> ->|].
  apply elem_of_cons in H as [H|H]; [by injection H as -> ->|].
  by apply elem_of_nil in H.
Qed.

Lemma cached_synced : own_keys Cases.cached ∧ synced Fixture.healthy Cases.cached.
Proof.
  apply synced_batch; [exact (twoValid_names _)|apply fresh_synced].
Qed.

Lemma restart_restores_index_witness :
  cachedMaps (cache (fst (init_load Fixture.healthy Cases.startup
                            (restart Cases.cached))))
  = cachedMaps Cases.cached.
Proof.
  pose proof (restart_restores_index Fixture.healthy Cases.startup
    Cases.cached (map_to_list (maps_table Cases.cached))
    (proj1 cached_synced) (proj2 cached_synced)
    cached_round_trip) as H.
  assert (opens Fixture.healthy Cases.startup (restart Cases.cached)
            (map_to_list (maps_table Cases.cached))) as Hopens.
  { split; [reflexivity|]. split; [reflexivity|].
    split; [right; reflexivity|reflexivity]. }
  specialize (H Hopens (reflexivity _) eq_refl eq_refl).
  exact (proj1 (proj2 H)).
Defined.

(** X15. Start-up is incremental with respect to the table: in a new
    process whose database opens and whose rows all parse, [init] fulfils,
    and by the time its batch has settled the parser has been called
    exactly for the listed files that have one of the two extensions and
    no row in the table, in the order of the listing. *)
Theorem init_parses_only_new (w : World) (b : Startup) (s : State)
  (rows : list (string * string)) (names : list string) :
  opens w b (restart s) rows →
  rows ≡ₚ map_to_list (maps_table s) →
  (∀ k data, maps_table s !! k = Some data → is_Some (JSON_parse b data)) →
  ipcMain_handle b [] "getCachedMaps" = true →
  ipcMain_handle b ["getCachedMaps"] "getCachedMap" = true →
  fs_readdir w (getMapsPath w) = Some names →
  snd (init w b (restart s)) = Fulfilled tt
  ∧ ∃ work,
      parser_calls (cache (fst (init w b (restart s))))
      = List.map (mapFilePath w) work
      ∧ work `sublist_of` names
      ∧ ∀ f, f ∈ work
             ↔ f ∈ names ∧ recognized f = true ∧ maps_table s !! f = None.
Proof.
  intros Hopens Hperm Hall Hh1 Hh2 Hdir.
  destruct (rows_of_table _ _ Hperm) as (Hnd & Hmap & Hrows).
  assert (∀ k data, (k, data) ∈ rows → is_Some (JSON_parse b data)) as Hparse.
  { intros k data Hin. apply Hrows in Hin. by eapply Hall. }
  destruct (init_load_loads w b (restart s) rows Hopens Hparse Hh1 Hh2)
    as (Hok & Hidx & _ & _ & _ & _ & _ & _ & Hp).
  destruct (init_settles w b (restart s)) as [Hsnd _].
  split; [by rewrite Hsnd|].
  unfold init, bindP, detached, liftP.
  destruct (init_load w b (restart s)) as [a1 r]. cbn in *. subst r. cbn.
  exists (workSet false (cache a1) names).
  assert (parser_calls (fst (cacheMaps w false (cache a1)))
          = List.map (mapFilePath w) (workSet false (cache a1) names)) as Hcalls.
  { rewrite (cacheMaps_listed _ _ _ _ Hdir), loop_parser_calls. by rewrite Hp. }
  split.
  { destruct (cacheMaps w false (cache a1)) as [s' [[]|e]]; done. }
  split; [apply List_filter_sublist|].
  intros f. rewrite elem_of_workSet.
  assert (recognized f = true →
          (cachedMaps (cache a1) !! f = None ↔ maps_table s !! f = None))
    as Hiff.
  { intros Hr. rewrite Hidx.
    rewrite (load_rows_lookup b rows ∅ f Hnd Hparse (recognized_not_proto _ Hr)).
    rewrite Hmap. destruct (maps_table s !! f) as [data|] eqn:Hf.
    - destruct (Hall _ _ Hf) as [d ->]. done.
    - by rewrite lookup_empty. }
  split.
  - intros (Hin & [Hf|Hnone] & Hr); [done|]. by rewrite <- Hiff.
  - intros (Hin & Hr & Hnone). rewrite Hiff by done. auto.
Qed.

Lemma cached_table :
  map_to_list (maps_table Cases.cached)
  = [("c.sdz", "json:c.sdz"); ("a.sd7", "json:a.sd7")].
Proof. vm_compute. reflexivity. Qed.

Lemma cached_rows_parse (k data : string) :
  maps_table Cases.cached !! k = Some data →
  is_Some (JSON_parse Cases.startup data).
Proof.
  intros H. apply elem_of_map_to_list in H. rewrite cached_table in H.
  apply elem_of_cons in H as [H|H].
  { apply pair_equal_spec in H as [_ ->]. vm_compute. eauto. }
  apply elem_of_cons in H as [H|H].
  { apply pair_equal_spec in H as [_ ->]. vm_compute. eauto. }
  by apply elem_of_nil in H.
Qed.

Lemma init_parses_only_new_witness :
  snd (init Fixture.threeArchives Cases.startup (restart Cases.cached))
  = Fulfilled tt
  ∧ ∃ work,
      parser_calls
        (cache (fst (init Fixture.threeArchives Cases.startup
                       (restart Cases.cached))))
      = List.map (mapFilePath Fixture.threeArchives) work
      ∧ ("a.sd7" ∉ work).
Proof.
  assert (opens Fixture.threeArchives Cases.startup (restart Cases.cached)
            (map_to_list (maps_table Cases.cached))) as Hopens.
  { split; [reflexivity|]. split; [reflexivity|].
    split; [right; reflexivity|reflexivity]. }
  destruct (init_parses_only_new Fixture.threeArchives Cases.startup
              Cases.cached (map_to_list (maps_table Cases.cached))
              ["a.sd7"; "b.sd7"; "c.sdz"; "readme.txt"]
              Hopens (reflexivity _) cached_rows_parse eq_refl eq_refl eq_refl)
    as (Hok & work & Hcalls & _ & Hwork).
  split; [exact Hok|]. exists work. split; [exact Hcalls|].
  intros Hin. apply Hwork in Hin as (_ & _ & Hnone).
  assert (maps_table Cases.cached !! "a.sd7" = Some "json:a.sd7") as Hrow.
  { apply elem_of_map_to_list. rewrite cached_table.
    apply elem_of_cons. right. apply elem_of_cons. by left. }
  rewrite Hrow in Hnone. discriminate Hnone.
Defined.

(** ** The two extensions *)

Lemma append_cons (c : ascii) (a b : string) :
  String c a +:+ b = String c (a +:+ b).
Proof. reflexivity. Qed.

Lemma substring_all (s : string) : substring 0 (String.length s) s = s.
Proof. induction s as [|c s IH]; cbn; [done|]. by rewrite IH. Qed.

Lemma substring_split (s : string) (i : nat) :
  (i ≤ String.length s)%nat →
  s = substring 0 i s +:+ substring i (String.length s - i) s.
Proof.
  revert i. induction s as [|c s IH]; intros [|i] Hi; cbn in *; try lia.
  - done.
  - by rewrite substring_all.
  - rewrite append_cons. f_equal. apply IH. lia.
Qed.

Lemma substring_suffix (pre suf : string) :
  substring (String.length pre) (String.length suf) (pre +:+ suf) = suf.
Proof.
  induction pre as [|c pre IH]; [apply substring_all|].
  rewrite append_cons. exact IH.
Qed.

Lemma length_append (a b : string) :
  String.length (a +:+ b) = (String.length a + String.length b)%nat.
Proof.
  induction a as [|c a IH]; [done|].
  rewrite append_cons. cbn. by rewrite IH.
Qed.

Lemma endsWith_suffix (s suffix : string) :
  endsWith s suffix = true ↔ ∃ pre, s = pre +:+ suffix.
Proof.
  unfold endsWith. rewrite andb_true_iff, Nat.leb_le, String.eqb_eq. split.
  - intros [Hle Hsub].
    exists (substring 0 (String.length s - String.length suffix) s).
    pose proof (substring_split s (String.length s - String.length suffix))
      as E.
    replace (String.length s - (String.length s - String.length suffix))%nat
      with (String.length suffix) in E by lia.
    rewrite Hsub in E. apply E. lia.
  - intros [pre ->]. rewrite length_append. split; [lia|].
    replace (String.length pre + String.length suffix - String.length suffix)%nat
      with (String.length pre) by lia.
    apply substring_suffix.
Qed.

(** X16. A file name passes the extension test of [cacheMaps] exactly
    when it is some text, possibly empty, followed by [.sd7] or by [.sdz];
    the comparison is by exact characters, so an upper-case extension or
    an extension followed by anything else does not pass, and a file
    named just [.sd7] does. *)
Theorem recognized_iff (f : string) :
  (recognized f = true ↔ ∃ base, f = base +:+ ".sd7" ∨ f = base +:+ ".sdz")
  ∧ recognized ".sd7" = true
  ∧ recognized "map.SD7" = false
  ∧ recognized "map.sd7.bak" = false.
Proof.
  split; [|by vm_compute].
  unfold recognized. rewrite orb_true_iff, !endsWith_suffix. split.
  - intros [[base ->]|[base ->]]; eauto.
  - intros [base [->| ->]]; eauto.
Qed.

Lemma recognized_iff_witness : recognized "dsd.sd7" = true.
Proof.
  apply (proj1 (recognized_iff "dsd.sd7")).
  exists "dsd". left. reflexivity.
Defined.

(** ** Image files and base names *)

Lemma destPath_fileName (w : World) (d d0 : MapData.t) (name : string) :
  MapData.fileName d0 = MapData.fileName d →
  destPath w d0 name = destPath w d name.
Proof. unfold destPath. by intros ->. Qed.

(** X17. The image files are named after the base name of the archive,
    without its extension: when an archive is cached while the index
    holds, under another key, a record with the same fileName (as for
    [a.sd7] and [a.sdz]), that record stays in the index as it was, but
    its four image files now hold the rasters of the new archive. *)
Theorem cacheMap_same_fileName (w : World) (p : string) (s : State)
  (m : SpringMap.t) (d : MapData.t) (k : string) (d0 : MapData.t) :
  snd (cacheMap_try w p s) = Ok tt →
  parser_parseMap w p = Some m →
  parseMapData m = Ok d →
  NoDup (destPath w d <$> ["texture"; "metal"; "height"; "type"]) →
  cachedMaps s !! k = Some d0 →
  k ≠ MapData.fileNameWithExt d →
  MapData.fileName d0 = MapData.fileName d →
  cachedMaps (fst (cacheMap w p s)) !! k = Some d0
  ∧ image_files (fst (cacheMap w p s)) !! destPath w d0 "texture"
    = SpringMap.textureMap m
  ∧ image_files (fst (cacheMap w p s)) !! destPath w d0 "metal"
    = SpringMap.metalMap m
  ∧ image_files (fst (cacheMap w p s)) !! destPath w d0 "height"
    = SpringMap.heightMap m
  ∧ image_files (fst (cacheMap w p s)) !! destPath w d0 "type"
    = SpringMap.typeMap m.
Proof.
  intros Hok Hm Hd Hnd Hk Hne Hname.
  pose proof Hok as Hok'.
  apply cacheMap_ok in Hok' as (m' & d' & Hm' & Hd' & Hc & _).
  assert (m' = m) as -> by congruence. assert (d' = d) as -> by congruence.
  apply cacheMap_ok_files in Hok
    as (m' & d' & t1 & t2 & t3 & t4 & Hm'' & Hd'' & H1 & H2 & H3 & H4 & Hf & _).
  assert (m' = m) as -> by congruence. assert (d' = d) as -> by congruence.
  rewrite Hc, Hf, H1, H2, H3, H4, !(destPath_fileName w d d0) by done.
  split; [by rewrite lookup_assign_ne|].
  cbn in Hnd.
  apply NoDup_cons in Hnd as [N1 Hnd]. apply NoDup_cons in Hnd as [N2 Hnd].
  apply NoDup_cons in Hnd as [N3 _].
  apply not_elem_of_cons in N1 as [A1 N1].
  apply not_elem_of_cons in N1 as [A2 N1].
  apply not_elem_of_cons in N1 as [A3 _].
  apply not_elem_of_cons in N2 as [B1 N2].
  apply not_elem_of_cons in N2 as [B2 _].
  apply not_elem_of_cons in N3 as [C1 _].
  split; [|split; [|split]].
  - rewrite !lookup_insert_ne by congruence. by rewrite lookup_insert_eq.
  - rewrite !lookup_insert_ne by congruence. by rewrite lookup_insert_eq.
  - rewrite lookup_insert_ne by congruence. by rewrite lookup_insert_eq.
  - by rewrite lookup_insert_eq.
Qed.

Lemma twins_a : processes Cases.twins "a.sdz".
Proof. eapply processes_of_steps; reflexivity. Qed.

Lemma cacheMap_same_fileName_witness :
  is_Some (cachedMaps
             (fst (cacheMap Cases.twins "/data/maps/a.sdz"
                     (fst (cacheMap Cases.twins "/data/maps/a.sd7"
                             Fixture.fresh))))
           !! "a.sd7")
  ∧ image_files
      (fst (cacheMap Cases.twins "/data/maps/a.sdz"
              (fst (cacheMap Cases.twins "/data/maps/a.sd7" Fixture.fresh))))
      !! "/data/map-images/a-texture.png"
    = Some (Fixture.raster 5).
Proof.
  destruct (cacheMap_same_fileName Cases.twins "/data/maps/a.sdz"
              (fst (cacheMap Cases.twins "/data/maps/a.sd7" Fixture.fresh))
              Cases.twin
              (match parseMapData Cases.twin with
               | Ok d => d | Throw _ => Fixture.oldRecord end)
              "a.sd7"
              (match parseMapData (Fixture.plain "a" ".sd7") with
               | Ok d => d | Throw _ => Fixture.oldRecord end))
    as (Hidx & Htex & _).
  - apply twins_a.
  - reflexivity.
  - reflexivity.
  - apply (bool_decide_unpack _). vm_compute. exact I.
  - vm_compute. reflexivity.
  - discriminate.
  - reflexivity.
  - split; [by rewrite Hidx|exact Htex].
Defined.

(** ** Events and the index *)

Lemma loop_cached_served (w : World) (total : nat) (l : list string) (n : nat)
  (s : State) (evs : list Event) :
  names_on w l →
  (∀ f, f ∈ l → f ≠ "__proto__") →
  ipcMain (fst (cacheMaps_loop w total l n s)) = ipcMain s ++ evs →
  ∀ d, map_cached d ∈ evs →
    ∃ f, f ∈ l
         ∧ record_of w f d
         ∧ MapData.fileNameWithExt d = f
         ∧ cachedMaps (fst (cacheMaps_loop w total l n s)) !! f = Some d
         ∧ maps_table (fst (cacheMaps_loop w total l n s)) !! f
           = Some (JSON_stringify w d).
Proof.
  revert n s evs.
  induction l as [|f l IH]; intros n s evs Hall Hproto E d Hd.
  - cbn in E. rewrite <- (app_nil_r (ipcMain s)) in E at 1.
    apply app_inv_head in E. subst evs. by apply elem_of_nil in Hd.
  - apply names_on_cons in Hall as [Hf Hnames].
    rewrite loop_cons in *.
    set (s0 := set_ipcMain (fun evs => evs ++ [progress total n f]) s) in *.
    set (s1 := fst (cacheMap w (mapFilePath w f) s0)) in *.
    destruct (loop_events w total l (S n) s1) as (evs' & E' & _).
    assert ((∃ f', f' ∈ l ∧ record_of w f' d
                   ∧ MapData.fileNameWithExt d = f'
                   ∧ cachedMaps (fst (cacheMaps_loop w total l (S n) s1)) !! f'
                     = Some d
                   ∧ maps_table (fst (cacheMaps_loop w total l (S n) s1)) !! f'
                     = Some (JSON_stringify w d))
            → ∃ f', f' ∈ f :: l ∧ record_of w f' d
                    ∧ MapData.fileNameWithExt d = f'
                    ∧ cachedMaps (fst (cacheMaps_loop w total l (S n) s1)) !! f'
                      = Some d
                    ∧ maps_table (fst (cacheMaps_loop w total l (S n) s1)) !! f'
                      = Some (JSON_stringify w d)) as Hlift.
    { intros (f' & Hin & Hrest). exists f'. split; [by right|done]. }
    assert (∀ g, g ∈ l → g ≠ "__proto__") as Hproto'.
    { intros g Hg. apply Hproto. by right. }
    destruct (cacheMap_try_cases w (mapFilePath w f) s0) as [H|[e H]].
    + apply cacheMap_ok in H as (m & d1 & Hm & Hd1 & Hc & Ht & Hi & _).
      fold s1 in Hc, Ht, Hi.
      rewrite E', Hi in E. cbn [s0 ipcMain set_ipcMain] in E.
      rewrite <- !app_assoc in E. apply app_inv_head in E. subst evs.
      cbn in Hd. apply elem_of_cons in Hd as [Hd|Hd]; [done|].
      apply elem_of_cons in Hd as [Hd|Hd].
      * injection Hd as ->.
        pose proof (Hf _ Hm) as Hkey.
        rewrite <- (parseMapData_fileNameWithExt _ _ Hd1) in Hkey.
        exists f. split; [by left|]. split; [by exists m|]. split; [done|].
        apply loop_keeps; [done|by exists m|].
        rewrite Hc, Ht, Hkey. rewrite lookup_assign_eq, lookup_insert_eq;
          [done|]. apply Hproto. by left.
      * apply Hlift. by apply (IH (S n) s1 evs').
    + apply cacheMap_throw in H as (_ & _ & Hi & _). fold s1 in Hi.
      rewrite E', Hi in E. cbn [s0 ipcMain set_ipcMain] in E.
      rewrite <- !app_assoc in E. apply app_inv_head in E. subst evs.
      cbn in Hd. apply elem_of_cons in Hd as [Hd|Hd]; [done|].
      apply Hlift. by apply (IH (S n) s1 evs').
Qed.

(** X18. When the parser reports each listed archive under its file name,
    every map-cached event of a batch tells the truth at the end of the
    batch:
    the record it carries is the record of an archive of the work set,
    and when the batch is over that record is in the index, and its
    serialized form in the table, under the file name of the archive. *)
Theorem cacheMaps_cached_served (w : World) (recacheAll : bool) (s : State)
  (names : list string) (evs : list Event) (d : MapData.t) :
  parser_names w →
  fs_readdir w (getMapsPath w) = Some names →
  ipcMain (fst (cacheMaps w recacheAll s)) = ipcMain s ++ evs →
  map_cached d ∈ evs →
  ∃ f, f ∈ workSet recacheAll s names
       ∧ record_of w f d
       ∧ MapData.fileNameWithExt d = f
       ∧ cachedMaps (fst (cacheMaps w recacheAll s)) !! f = Some d
       ∧ maps_table (fst (cacheMaps w recacheAll s)) !! f
         = Some (JSON_stringify w d).
Proof.
  intros Hnames Hdir. rewrite (cacheMaps_listed _ _ _ _ Hdir).
  intros E Hd.
  eapply loop_cached_served; [by apply names_on_workSet| |done..].
  intros f Hf. apply elem_of_workSet in Hf as (_ & _ & Hr).
  by apply recognized_not_proto.
Qed.

Lemma cacheMaps_cached_served_witness :
  ∃ d f,
    MapData.fileNameWithExt d = f
    ∧ cachedMaps (fst (cacheMaps Fixture.healthy false Fixture.fresh)) !! f
      = Some d.
Proof.
  assert (∃ d evs,
            ipcMain (fst (cacheMaps Fixture.healthy false Fixture.fresh))
            = ipcMain Fixture.fresh ++ evs
            ∧ map_cached d ∈ evs) as (d & evs & E & Hd).
  { eexists _, _. split; [vm_compute; reflexivity|].
    apply elem_of_cons. right. apply elem_of_cons. by left. }
  destruct (cacheMaps_cached_served Fixture.healthy false Fixture.fresh
              ["a.sd7"; "c.sdz"; "readme.txt"] evs d
              (twoValid_names _) eq_refl E Hd)
    as (f & _ & _ & Hkey & Hidx & _).
  exists d, f. split; [exact Hkey|exact Hidx].
Defined.

Lemma listened_loop_throws (L : Listened.Listeners) (w : World) (total : nat)
  (l : list string) (n : nat) (s : State) (e : Err) :
  snd (Listened.cacheMaps_loop L w total l n s) = Throw e →
  ∃ sent p,
    ipcMain (fst (Listened.cacheMaps_loop L w total l n s))
    = sent ++ [map_cache_progress p]
    ∧ L sent (map_cache_progress p) = Some e
    ∧ currentMapCaching p ∈ l.
Proof.
  revert n s. induction l as [|f l IH]; intros n s; [done|].
  rewrite listened_loop_cons.
  destruct (L (ipcMain s) (progress total n f)) as [e'|] eqn:Hp.
  - intros [= <-]. eexists (ipcMain s), _. cbn.
    split; [done|]. split; [exact Hp|]. by left.
  - intros H. destruct (IH _ _ H) as (sent & p & E & HL & Hin).
    exists sent, p. split; [done|]. split; [done|]. by right.
Qed.

Lemma listened_loop_returns (L : Listened.Listeners) (w : World) (total : nat)
  (l : list string) (n : nat) (s : State) :
  (∀ sent p, L sent (map_cache_progress p) = None) →
  snd (Listened.cacheMaps_loop L w total l n s) = Ok tt.
Proof.
  intros HL. revert n s. induction l as [|f l IH]; intros n s; [done|].
  rewrite listened_loop_cons. unfold progress. by rewrite HL.
Qed.

(** X19. A batch throws to its caller in two cases only.  When the maps
    directory cannot be listed, it throws the error of the listing and
    has done nothing: the state is the one it started from.  When the
    directory can be listed and the batch throws, the last event sent is
    the map-cache-progress event of an item of the work set, and what the
    batch throws is what a listener of that event threw.  So when no
    listener of map-cache-progress throws, as in a process without
    listeners, a batch throws exactly when the directory cannot be listed;
    what a listener of map-cached throws never leaves the batch.  With
    listeners that never throw, the batch is the one without
    listeners. *)
Theorem cacheMaps_rejects_iff (L : Listened.Listeners) (w : World)
  (recacheAll : bool) (s : State) :
  (fs_readdir w (getMapsPath w) = None →
   Listened.cacheMaps L w recacheAll s
   = (s, Throw (ReaddirError (getMapsPath w))))
  ∧ (∀ names e,
       fs_readdir w (getMapsPath w) = Some names →
       snd (Listened.cacheMaps L w recacheAll s) = Throw e →
       ∃ sent p,
         ipcMain (fst (Listened.cacheMaps L w recacheAll s))
         = sent ++ [map_cache_progress p]
         ∧ L sent (map_cache_progress p) = Some e
         ∧ currentMapCaching p ∈ workSet recacheAll s names)
  ∧ ((∀ sent p, L sent (map_cache_progress p) = None) →
     ∀ e, snd (Listened.cacheMaps L w recacheAll s) = Throw e
          ↔ fs_readdir w (getMapsPath w) = None
            ∧ e = ReaddirError (getMapsPath w))
  ∧ Listened.cacheMaps Listened.silent w recacheAll s
    = cacheMaps w recacheAll s.
Proof.
  split; [apply listened_unlisted|]. split; [|split; [|apply listened_silent]].
  - intros names e Hdir. rewrite (listened_listed _ _ _ _ _ Hdir).
    apply listened_loop_throws.
  - intros HL e.
    destruct (fs_readdir w (getMapsPath w)) as [names|] eqn:Hdir.
    + rewrite (listened_listed _ _ _ _ _ Hdir).
      rewrite (listened_loop_returns _ _ _ _ _ _ HL).
      split; [done|]. by intros [? _].
    + rewrite (listened_unlisted _ _ _ _ Hdir). cbn. split.
      * by intros [= <-].
      * by intros [_ ->].
Qed.

Lemma cacheMaps_rejects_iff_witness :
  Listened.cacheMaps Cases.stopsAtB Cases.unlisted false Fixture.fresh
  = (Fixture.fresh, Throw (ReaddirError "/data/maps"))
  ∧ ∃ sent p,
      ipcMain (fst (Listened.cacheMaps Cases.stopsAtB Fixture.threeArchives
                      false Fixture.fresh))
      = sent ++ [map_cache_progress p]
      ∧ Cases.stopsAtB sent (map_cache_progress p)
        = Some (TypeError "listener").
Proof.
  split.
  - apply (proj1 (cacheMaps_rejects_iff Cases.stopsAtB Cases.unlisted false
                    Fixture.fresh)).
    reflexivity.
  - assert (snd (Listened.cacheMaps Cases.stopsAtB Fixture.threeArchives
                   false Fixture.fresh) = Throw (TypeError "listener")) as H
      by (vm_compute; reflexivity).
    destruct (proj1 (proj2 (cacheMaps_rejects_iff Cases.stopsAtB
                              Fixture.threeArchives false Fixture.fresh))
                ["a.sd7"; "b.sd7"; "c.sdz"; "readme.txt"]
                (TypeError "listener") eq_refl H)
      as (sent & p & E & HL & _).
    exists sent, p. split; [exact E|exact HL].
Defined.
